(** * go-kademlia: the simple query engine and the simulated endpoint

    A shallow embedding of [query/simplequery/query.go] and of
    [sim/endpoint.go], with the properties of the lookup state machine and
    of the endpoint's callback delivery that the specification states.

    Conventions.
    - Go's [int] and [time.Duration] are [Z].  A step of the programs
      below moves a counter by at most the number of actions it schedules,
      so the counters stay far inside the machine range on every run that
      a machine can perform; [inflight_lower_bound] makes the distance
      travelled explicit.
    - A [nil] function value, interface or error is [None].
    - A Go panic (nil dereference, slice bounds) is the result [None] of a
      function that otherwise returns [Some].
    - Closures handed to the scheduler are first-order [Action]s; running
      an action is a function of the state the closure captured by
      reference. *)

From Stdlib Require Import ZArith Lia Bool.
From stdpp Require Import base option list gmap strings.

Local Open Scope Z_scope.

(** ** Keys, node identifiers and addresses *)

(** [key.KadKey]: a bit string, most significant bit first. *)
Definition KadKey := list bool.

(** [address.NodeID]: an identifier with a string form and a DHT key. *)
Record NodeID := mkNodeID { nid_String : string; nid_Key : KadKey }.

(** [address.NodeAddr]: a node identifier with its network addresses. *)
Record NodeAddr := mkNodeAddr { na_NodeID : NodeID; na_Addrs : list string }.

#[global] Instance NodeID_eq_dec : EqDecision NodeID.
Proof. solve_decision. Defined.
#[global] Instance NodeAddr_eq_dec : EqDecision NodeAddr.
Proof. solve_decision. Defined.

Definition ProtocolID := string.
Definition Duration := Z.

(** [endpoint.StreamID] is an unsigned integer. *)
Definition StreamID := N.

(** The error values that the two files create or compare against; any
    other error is [ErrOther] with its text. *)
Inductive Error :=
| ErrUnknownPeer
| ErrTimeout
| ErrInvalidResponseType
| ErrNilRequestHandler
| ErrInvalidKey
| ErrOther (text : string).

#[global] Instance Error_eq_dec : EqDecision Error.
Proof. solve_decision. Defined.

(** [message.MinKadMessage].  The type assertion
    [msg.(message.MinKadResponseMessage)] succeeds exactly on [Response],
    whose [CloserNodes()] is the carried list. *)
Inductive MinKadMessage :=
| Request (target : KadKey)
| Response (closer : list NodeAddr)
| Opaque (body : string).

#[global] Instance MinKadMessage_eq_dec : EqDecision MinKadMessage.
Proof. solve_decision. Defined.

Definition asResponse (msg : MinKadMessage) : option (list NodeAddr) :=
  match msg with Response closer => Some closer | _ => None end.

(** ** The simulated endpoint, [sim/endpoint.go] *)
Module Sim.

(** [network.Connectedness] of libp2p. *)
Inductive Connectedness := NotConnected | Connected | CanConnect | CannotConnect.

#[global] Instance Connectedness_eq_dec : EqDecision Connectedness.
Proof. solve_decision. Defined.

(** [planner.PlannedAction]: the handle of a planned action; handles are
    compared by identity, here a serial number. *)
Definition PlannedAction := nat.

Section WithCallbacks.

(** The response callbacks are closures of the caller.  The endpoint only
    stores them, compares them with [nil] and calls them, so they are
    tokens of a type with decidable equality; [None] is the [nil]
    function. *)
Context {Callback : Type} `{EqDecision Callback}.

Definition ResponseHandlerFn := option Callback.

(** [endpoint.RequestHandlerFn]: a server handler, [None] for [nil]. *)
Definition RequestHandlerFn :=
  option (NodeID → MinKadMessage → MinKadMessage + Error).

(** The closures that [endpoint.go] hands to the scheduler. *)
Inductive Action :=
| ActDeliver (handleResp : ResponseHandlerFn)
             (resp : option MinKadMessage) (err : option Error)
  (* func(ctx) { handleResp(ctx, resp, err) }, lines 109, 122 and 204 *)
| ActTimeout (sid : StreamID).
  (* the timeout closure of SendRequestHandleResponse, lines 132-146 *)

#[global] Instance Action_eq_dec : EqDecision Action.
Proof. solve_decision. Defined.

(** Modelled from the spec: the scheduler, which is not part of these
    files.  "A single-threaded scheduler that accepts queued actions and
    time-delayed actions and runs them in FIFO order"; "time-delayed
    actions are inserted into a planner and fire via the same FIFO when
    their deadline elapses". *)
Record Scheduler := mkScheduler {
  queue : list Action;
  planned : list (PlannedAction * Duration * Action);
  nextPlanned : PlannedAction
}.

Definition EnqueueAction (a : Action) (s : Scheduler) : Scheduler :=
  mkScheduler (queue s ++ [a]) (planned s) (nextPlanned s).

Definition ScheduleActionIn (d : Duration) (a : Action) (s : Scheduler)
  : PlannedAction * Scheduler :=
  (nextPlanned s,
   mkScheduler (queue s) (planned s ++ [(nextPlanned s, d, a)])
               (S (nextPlanned s))).

Definition isPlanned (pa : PlannedAction)
  (p : PlannedAction * Duration * Action) : bool :=
  Nat.eqb (fst (fst p)) pa.

Definition RemovePlannedAction (pa : PlannedAction) (s : Scheduler) : Scheduler :=
  mkScheduler (queue s)
              (List.filter (λ p, negb (isPlanned pa p)) (planned s))
              (nextPlanned s).

(** The deadline of [pa] elapses: its action joins the FIFO. *)
Definition elapse (pa : PlannedAction) (s : Scheduler) : Scheduler :=
  mkScheduler (queue s ++ List.map snd (List.filter (isPlanned pa) (planned s)))
              (List.filter (λ p, negb (isPlanned pa p)) (planned s))
              (nextPlanned s).

(** A call of [Router.SendMessage] as the router sees it.  The router is
    not part of these files: the endpoint's calls on it are recorded, and
    the reply of each call is an input of the function that makes it. *)
Record Sent := mkSent {
  sent_from : NodeID; sent_to : NodeID; sent_proto : ProtocolID;
  sent_sid : StreamID; sent_msg : MinKadMessage
}.

Definition SendReply : Type := StreamID + Error.

Record Endpoint := mkEndpoint {
  self : NodeID;
  sched : Scheduler;
  peerstore : gmap string NodeAddr;
  connStatus : gmap string Connectedness;
  serverProtos : gmap ProtocolID RequestHandlerFn;
  streamFollowup : gmap StreamID ResponseHandlerFn;
  streamTimeout : gmap StreamID PlannedAction;
  router : list Sent
}.

Definition set_sched (f : Scheduler → Scheduler) (e : Endpoint) : Endpoint :=
  mkEndpoint (self e) (f (sched e)) (peerstore e) (connStatus e)
             (serverProtos e) (streamFollowup e) (streamTimeout e) (router e).
Definition set_peerstore (f : gmap string NodeAddr → gmap string NodeAddr)
  (e : Endpoint) : Endpoint :=
  mkEndpoint (self e) (sched e) (f (peerstore e)) (connStatus e)
             (serverProtos e) (streamFollowup e) (streamTimeout e) (router e).
Definition set_connStatus
  (f : gmap string Connectedness → gmap string Connectedness)
  (e : Endpoint) : Endpoint :=
  mkEndpoint (self e) (sched e) (peerstore e) (f (connStatus e))
             (serverProtos e) (streamFollowup e) (streamTimeout e) (router e).
Definition set_serverProtos
  (f : gmap ProtocolID RequestHandlerFn → gmap ProtocolID RequestHandlerFn)
  (e : Endpoint) : Endpoint :=
  mkEndpoint (self e) (sched e) (peerstore e) (connStatus e)
             (f (serverProtos e)) (streamFollowup e) (streamTimeout e) (router e).
Definition set_streamFollowup
  (f : gmap StreamID ResponseHandlerFn → gmap StreamID ResponseHandlerFn)
  (e : Endpoint) : Endpoint :=
  mkEndpoint (self e) (sched e) (peerstore e) (connStatus e)
             (serverProtos e) (f (streamFollowup e)) (streamTimeout e) (router e).
Definition set_streamTimeout
  (f : gmap StreamID PlannedAction → gmap StreamID PlannedAction)
  (e : Endpoint) : Endpoint :=
  mkEndpoint (self e) (sched e) (peerstore e) (connStatus e)
             (serverProtos e) (streamFollowup e) (f (streamTimeout e)) (router e).
Definition set_router (f : list Sent → list Sent) (e : Endpoint) : Endpoint :=
  mkEndpoint (self e) (sched e) (peerstore e) (connStatus e)
             (serverProtos e) (streamFollowup e) (streamTimeout e) (f (router e)).

(** [NewEndpoint], for a scheduler [s]; the registration with the router
    is the router's business. *)
Definition NewEndpoint (self0 : NodeID) (s : Scheduler) : Endpoint :=
  mkEndpoint self0 s ∅ ∅ ∅ ∅ ∅ [].

Definition DialPeer (id : NodeID) (e : Endpoint) : Endpoint * option Error :=
  match connStatus e !! nid_String id with
  | Some Connected => (e, None)
  | Some CanConnect =>
      (set_connStatus (λ m, <[nid_String id := Connected]> m) e, None)
  | _ => (e, Some ErrUnknownPeer)
  end.

(** [MaybeAddToPeerstore]; "Endpoint doesn't take into account the ttl". *)
Definition MaybeAddToPeerstore (id : NodeAddr) (ttl : Duration) (e : Endpoint)
  : Endpoint * option Error :=
  let strNodeID := nid_String (na_NodeID id) in
  let e1 :=
    match peerstore e !! strNodeID with
    | Some _ => e
    | None => set_peerstore (λ m, <[strNodeID := id]> m) e
    end in
  let e2 :=
    match connStatus e1 !! strNodeID with
    | Some _ => e1
    | None => set_connStatus (λ m, <[strNodeID := CanConnect]> m) e1
    end in
  (e2, None).

(** [e.router.SendMessage(ctx, from, to, protoID, sid, msg)] as far as the
    endpoint is concerned: the call is recorded. *)
Definition SendMessage (to : NodeID) (protoID : ProtocolID) (sid : StreamID)
  (msg : MinKadMessage) (e : Endpoint) : Endpoint :=
  set_router (λ r, r ++ [mkSent (self e) to protoID sid msg]) e.

(** [SendRequestHandleResponse].  [reply] is what [Router.SendMessage]
    answers when the dial succeeds.  [e.peerstore[id.String()]] of an
    absent entry is a nil interface, and [addr.NodeID()] on it panics. *)
Definition SendRequestHandleResponse (protoID : ProtocolID) (id : NodeID)
  (req resp : MinKadMessage) (timeout : Duration)
  (handleResp : ResponseHandlerFn) (reply : SendReply) (e : Endpoint)
  : option (Endpoint * option Error) :=
  match DialPeer id e with
  | (e1, Some err) =>
      Some (set_sched (EnqueueAction (ActDeliver handleResp None (Some err))) e1,
            None)
  | (e1, None) =>
      match peerstore e1 !! nid_String id with
      | None => None
      | Some addr =>
          let e2 := SendMessage (na_NodeID addr) protoID 0%N req e1 in
          match reply with
          | inr err =>
              Some (set_sched
                      (EnqueueAction (ActDeliver handleResp None (Some err))) e2,
                    None)
          | inl sid =>
              let e3 := set_streamFollowup (λ m, <[sid := handleResp]> m) e2 in
              if Z.eqb timeout 0 then Some (e3, None)
              else
                let '(pa, s') :=
                  ScheduleActionIn timeout (ActTimeout sid) (sched e3) in
                Some (set_streamTimeout (λ m, <[sid := pa]> m)
                        (set_sched (λ _, s') e3),
                      None)
          end
      end
  end.

Definition Connectedness_of (id : NodeID) (e : Endpoint)
  : Connectedness * option Error :=
  match connStatus e !! nid_String id with
  | None => (NotConnected, None)
  | Some s => (s, None)
  end.

(** The loop of [HandleMessage] over the closer nodes of a response. *)
Definition learn (p : NodeAddr) (e : Endpoint) : Endpoint :=
  set_connStatus (λ m, <[nid_String (na_NodeID p) := CanConnect]> m)
    (set_peerstore (λ m, <[nid_String (na_NodeID p) := p]> m) e).

Definition learnAll (ps : list NodeAddr) (e : Endpoint) : Endpoint :=
  fold_left (λ e p, learn p e) ps e.

(** [HandleMessage].  The reply of the router to the server's answer is
    dropped by the code. *)
Definition HandleMessage (id : NodeID) (protoID : ProtocolID) (sid : StreamID)
  (msg : MinKadMessage) (e : Endpoint) : Endpoint :=
  match streamFollowup e !! sid with
  | Some followup =>
      let e1 :=
        match streamTimeout e !! sid with
        | Some timeout => set_sched (RemovePlannedAction timeout) e
        | None => e
        end in
      let e2 := set_streamTimeout (delete sid)
                  (set_streamFollowup (delete sid) e1) in
      let '(e3, resp, err) :=
        match asResponse msg with
        | Some closer => (learnAll closer e2, Some msg, None)
        | None => (e2, None, Some ErrInvalidResponseType)
        end in
      match followup with
      | Some _ => set_sched (EnqueueAction (ActDeliver followup resp err)) e3
      | None => e3
      end
  | None =>
      match serverProtos e !! protoID with
      | Some (Some handler) =>
          match handler id msg with
          | inr _ => e
          | inl resp => SendMessage id protoID sid resp e
          end
      | _ => e
      end
  end.

Definition AddRequestHandler (protoID : ProtocolID) (reqHandler : RequestHandlerFn)
  (e : Endpoint) : Endpoint * option Error :=
  match reqHandler with
  | None => (e, Some ErrNilRequestHandler)
  | Some _ => (set_serverProtos (λ m, <[protoID := reqHandler]> m) e, None)
  end.

Definition RemoveRequestHandler (protoID : ProtocolID) (e : Endpoint) : Endpoint :=
  set_serverProtos (delete protoID) e.

(** An [address.NodeID] interface value as [NetworkAddress] sees it: the
    type assertion [id.(address.NodeAddr)] succeeds exactly on [IsAddr]. *)
Inductive NodeIDValue :=
| PlainID (id : NodeID)
| IsAddr (addr : NodeAddr).

Definition idOf (v : NodeIDValue) : NodeID :=
  match v with PlainID id => id | IsAddr addr => na_NodeID addr end.

(** [NetworkAddress]; a nil address is [None]. *)
Definition NetworkAddress (id : NodeIDValue) (e : Endpoint)
  : option NodeAddr * option Error :=
  match peerstore e !! nid_String (idOf id) with
  | Some ai => (Some ai, None)
  | None =>
      match id with
      | IsAddr na => (Some na, None)
      | PlainID _ => (None, Some ErrUnknownPeer)
      end
  end.

(** [KadKey], the method: the key of the endpoint's own identifier. *)
Definition selfKey (e : Endpoint) : KadKey := nid_Key (self e).

(** "id.String() is guaranteed to be in peerstore": every peer with a
    connection status has an address. *)
Definition peersKnown (e : Endpoint) : Prop :=
  ∀ s, is_Some (connStatus e !! s) → is_Some (peerstore e !! s).


(** ** The endpoint at work: events, and what the callbacks observe *)

(** One call of a response handler by the scheduler's thread. *)
Record Delivery := mkDelivery {
  d_cb : Callback; d_resp : option MinKadMessage; d_err : option Error
}.

(** The endpoint together with the record of the handler calls made so
    far.  The handlers are the caller's code: what they do next appears
    as later events. *)
Record World := mkWorld { endpoint : Endpoint; delivered : list Delivery }.

Definition onEndpoint (f : Endpoint → Endpoint) (w : World) : World :=
  mkWorld (f (endpoint w)) (delivered w).

(** Running a closure of [endpoint.go].  Calling a nil [handleResp]
    panics. *)
Definition runAction (a : Action) (w : World) : option World :=
  match a with
  | ActDeliver None _ _ => None
  | ActDeliver (Some cb) resp err =>
      Some (mkWorld (endpoint w) (delivered w ++ [mkDelivery cb resp err]))
  | ActTimeout sid =>
      let handleFn := streamFollowup (endpoint w) !! sid in
      let e' := set_streamTimeout (delete sid)
                  (set_streamFollowup (delete sid) (endpoint w)) in
      match handleFn with
      | Some (Some cb) =>
          Some (mkWorld e' (delivered w ++ [mkDelivery cb None (Some ErrTimeout)]))
      | _ => Some (mkWorld e' (delivered w))
      end
  end.

(** Everything that can happen to an endpoint: calls of its methods, a
    deadline that elapses, and the scheduler running the next action. *)
Inductive Event :=
| EvDialPeer (id : NodeID)
| EvMaybeAddToPeerstore (id : NodeAddr) (ttl : Duration)
| EvSendRequest (protoID : ProtocolID) (id : NodeID) (req resp : MinKadMessage)
                (timeout : Duration) (handleResp : ResponseHandlerFn)
                (reply : SendReply)
| EvHandleMessage (id : NodeID) (protoID : ProtocolID) (sid : StreamID)
                  (msg : MinKadMessage)
| EvAddRequestHandler (protoID : ProtocolID) (reqHandler : RequestHandlerFn)
| EvRemoveRequestHandler (protoID : ProtocolID)
| EvElapse (pa : PlannedAction)
| EvRunOne.

Definition step (ev : Event) (w : World) : option World :=
  match ev with
  | EvDialPeer id => Some (onEndpoint (λ e, fst (DialPeer id e)) w)
  | EvMaybeAddToPeerstore id ttl =>
      Some (onEndpoint (λ e, fst (MaybeAddToPeerstore id ttl e)) w)
  | EvSendRequest protoID id req resp timeout handleResp reply =>
      match SendRequestHandleResponse protoID id req resp timeout handleResp
              reply (endpoint w) with
      | Some (e', _) => Some (mkWorld e' (delivered w))
      | None => None
      end
  | EvHandleMessage id protoID sid msg =>
      Some (onEndpoint (HandleMessage id protoID sid msg) w)
  | EvAddRequestHandler protoID reqHandler =>
      Some (onEndpoint (λ e, fst (AddRequestHandler protoID reqHandler e)) w)
  | EvRemoveRequestHandler protoID =>
      Some (onEndpoint (RemoveRequestHandler protoID) w)
  | EvElapse pa => Some (onEndpoint (set_sched (elapse pa)) w)
  | EvRunOne =>
      match queue (sched (endpoint w)) with
      | [] => Some w
      | a :: rest =>
          runAction a
            (onEndpoint
               (set_sched (λ s, mkScheduler rest (planned s) (nextPlanned s))) w)
      end
  end.

Fixpoint run (evs : list Event) (w : World) : option World :=
  match evs with
  | [] => Some w
  | ev :: evs' =>
      match step ev w with
      | Some w' => run evs' w'
      | None => None
      end
  end.

(** The endpoint as [NewEndpoint] makes it, on a scheduler that has
    nothing queued and nothing planned, before any callback was called. *)
Definition start (self0 : NodeID) : World :=
  mkWorld (NewEndpoint self0 (mkScheduler [] [] O)) [].

(** *** The parts of the state that callback delivery depends on *)

Definition followups (w : World) : gmap StreamID ResponseHandlerFn :=
  streamFollowup (endpoint w).
Definition timeouts (w : World) : gmap StreamID PlannedAction :=
  streamTimeout (endpoint w).
Definition fifo (w : World) : list Action := queue (sched (endpoint w)).
Definition plan (w : World) : list (PlannedAction * Duration * Action) :=
  planned (sched (endpoint w)).
Definition serial (w : World) : PlannedAction :=
  nextPlanned (sched (endpoint w)).

Definition plannedActions (w : World) : list Action := List.map snd (plan w).

(** What the follow-up of a stream is called with when a message arrives
    on it, lines 193-206. *)
Definition answerPayload (msg : MinKadMessage)
  : option MinKadMessage * option Error :=
  match asResponse msg with
  | Some _ => (Some msg, None)
  | None => (None, Some ErrInvalidResponseType)
  end.

(** The stream that a call opens: none when the dial or the send fails. *)
Definition opened (id : NodeID) (reply : SendReply) (w : World)
  : option StreamID :=
  match snd (DialPeer id (endpoint w)), reply with
  | None, inl sid => Some sid
  | _, _ => None
  end.

(** The events that touch none of those parts. *)
Definition quiet (ev : Event) : bool :=
  match ev with
  | EvDialPeer _ | EvMaybeAddToPeerstore _ _ | EvAddRequestHandler _ _
  | EvRemoveRequestHandler _ => true
  | _ => false
  end.

Definition unchanged (w w' : World) : Prop :=
  followups w' = followups w ∧ timeouts w' = timeouts w
  ∧ fifo w' = fifo w ∧ plan w' = plan w ∧ serial w' = serial w
  ∧ delivered w' = delivered w.

(** The effect of an event on those parts, case by case. *)
Inductive effect (w w' : World) : Event → Prop :=
| eff_quiet ev :
    quiet ev = true → unchanged w w' → effect w w' ev
| eff_request id protoID sid msg :
    followups w !! sid = None → unchanged w w' →
    effect w w' (EvHandleMessage id protoID sid msg)
| eff_idle :
    fifo w = [] → unchanged w w' → effect w w' EvRunOne
| eff_fail protoID id req resp timeout h reply err :
    opened id reply w = None →
    err = ErrUnknownPeer ∨ reply = inr err →
    followups w' = followups w → timeouts w' = timeouts w →
    fifo w' = fifo w ++ [ActDeliver h None (Some err)] →
    plan w' = plan w → serial w' = serial w →
    delivered w' = delivered w →
    effect w w' (EvSendRequest protoID id req resp timeout h reply)
| eff_open protoID id req resp h sid :
    opened id (inl sid) w = Some sid →
    followups w' = <[sid := h]> (followups w) → timeouts w' = timeouts w →
    fifo w' = fifo w → plan w' = plan w → serial w' = serial w →
    delivered w' = delivered w →
    effect w w' (EvSendRequest protoID id req resp 0 h (inl sid))
| eff_open_timed protoID id req resp timeout h sid :
    timeout ≠ 0 →
    opened id (inl sid) w = Some sid →
    followups w' = <[sid := h]> (followups w) →
    timeouts w' = <[sid := serial w]> (timeouts w) →
    fifo w' = fifo w →
    plan w' = plan w ++ [(serial w, timeout, ActTimeout sid)] →
    serial w' = S (serial w) →
    delivered w' = delivered w →
    effect w w' (EvSendRequest protoID id req resp timeout h (inl sid))
| eff_answer id protoID sid msg f :
    followups w !! sid = Some f →
    followups w' = delete sid (followups w) →
    timeouts w' = delete sid (timeouts w) →
    fifo w' = fifo w ++
              match f with
              | Some _ => [ActDeliver f (fst (answerPayload msg))
                                      (snd (answerPayload msg))]
              | None => []
              end →
    plan w' = match timeouts w !! sid with
              | Some pa => List.filter (λ p, negb (isPlanned pa p)) (plan w)
              | None => plan w
              end →
    serial w' = serial w →
    delivered w' = delivered w →
    effect w w' (EvHandleMessage id protoID sid msg)
| eff_elapse pa :
    followups w' = followups w → timeouts w' = timeouts w →
    fifo w' = fifo w ++ List.map snd (List.filter (isPlanned pa) (plan w)) →
    plan w' = List.filter (λ p, negb (isPlanned pa p)) (plan w) →
    serial w' = serial w →
    delivered w' = delivered w →
    effect w w' (EvElapse pa)
| eff_run_deliver cb resp err rest :
    fifo w = ActDeliver (Some cb) resp err :: rest →
    followups w' = followups w → timeouts w' = timeouts w →
    fifo w' = rest → plan w' = plan w → serial w' = serial w →
    delivered w' = delivered w ++ [mkDelivery cb resp err] →
    effect w w' EvRunOne
| eff_run_timeout sid rest :
    fifo w = ActTimeout sid :: rest →
    followups w' = delete sid (followups w) →
    timeouts w' = delete sid (timeouts w) →
    fifo w' = rest → plan w' = plan w → serial w' = serial w →
    delivered w' = delivered w ++
                   match followups w !! sid with
                   | Some (Some cb) => [mkDelivery cb None (Some ErrTimeout)]
                   | _ => []
                   end →
    effect w w' EvRunOne.

(** *** Observations about one callback [cb] *)

Definition delivers (cb : Callback) (a : Action) : bool :=
  match a with
  | ActDeliver h _ _ => bool_decide (h = Some cb)
  | ActTimeout _ => false
  end.

Definition isFor (cb : Callback) (d : Delivery) : bool :=
  bool_decide (d_cb d = cb).

(** The calls of [cb] that wait in the FIFO. *)
Definition queuedFor (cb : Callback) (w : World) : nat :=
  length (List.filter (delivers cb) (fifo w)).

(** The calls of [cb] made so far. *)
Definition deliveriesTo (cb : Callback) (w : World) : list Delivery :=
  List.filter (isFor cb) (delivered w).

Definition deliveredTo (cb : Callback) (w : World) : nat :=
  length (deliveriesTo cb w).

(** [cb] is the follow-up of no stream. *)
Definition unregistered (cb : Callback) (w : World) : Prop :=
  ∀ sid, followups w !! sid ≠ Some (Some cb).

(** No planned action is a call of [cb]: the endpoint plans timeouts
    only. *)
Definition noPlannedDelivery (cb : Callback) (w : World) : Prop :=
  ∀ a, a ∈ plannedActions w → delivers cb a = false.

(** [cb] is not in use: a closure made for a new request. *)
Definition fresh (cb : Callback) (w : World) : Prop :=
  unregistered cb w ∧ queuedFor cb w = O ∧ deliveredTo cb w = O
  ∧ noPlannedDelivery cb w.

(** A timeout closure for [sid] is queued or planned. *)
Definition timeoutPending (sid : StreamID) (w : World) : Prop :=
  ActTimeout sid ∈ fifo w ∨ ActTimeout sid ∈ plannedActions w.

(** Nothing is queued and nothing is planned: the scheduler has run all
    there was to run. *)
Definition quiescent (w : World) : Prop := fifo w = [] ∧ plan w = [].

(** The handles of the planner are serial numbers below the next one, and
    the handle stored for a stream is that of its timeout closure. *)
Definition wfPlanner (w : World) : Prop :=
  (∀ sid pa, timeouts w !! sid = Some pa → (pa < serial w)%nat)
  ∧ (∀ p, p ∈ plan w → (fst (fst p) < serial w)%nat)
  ∧ (∀ sid pa p, timeouts w !! sid = Some pa → p ∈ plan w →
       fst (fst p) = pa → snd p = ActTimeout sid).

(** [cb] waits as the follow-up of stream [sid], and nowhere else. *)
Definition Armed (cb : Callback) (sid : StreamID) (w : World) : Prop :=
  followups w !! sid = Some (Some cb)
  ∧ (∀ sid', followups w !! sid' = Some (Some cb) → sid' = sid)
  ∧ queuedFor cb w = O ∧ deliveredTo cb w = O
  ∧ noPlannedDelivery cb w.

(** [cb] is the follow-up of no stream, and [n] calls of it are queued or
    made. *)
Definition Settled (cb : Callback) (n : nat) (w : World) : Prop :=
  unregistered cb w
  ∧ (queuedFor cb w + deliveredTo cb w)%nat = n
  ∧ noPlannedDelivery cb w.

(** Every call of [cb], queued or made, carries a payload in [P]. *)
Definition payloads (P : option MinKadMessage → option Error → Prop)
  (cb : Callback) (w : World) : Prop :=
  (∀ resp err, ActDeliver (Some cb) resp err ∈ fifo w → P resp err)
  ∧ (∀ d, d ∈ delivered w → d_cb d = cb → P (d_resp d) (d_err d)).

(** [cb] was handed to one request, whose stream (if it got one) is
    [sid]: it waits there, or its calls number at most one. *)
Definition AtMostOnce (cb : Callback) (sid : StreamID) (w : World) : Prop :=
  Armed cb sid w ∨ ∃ n, (n ≤ 1)%nat ∧ Settled cb n w.

(** The same for a request with timeout [t] whose stream is given to no
    later request: [cb] waits on [sid], with a timeout closure pending
    exactly when [t] is not zero, or it has exactly one call, queued or
    made. *)
Definition Tracked (P : option MinKadMessage → option Error → Prop)
  (cb : Callback) (sid : StreamID) (t : Duration) (w : World) : Prop :=
  (t ≠ 0 → wfPlanner w)
  ∧ payloads P cb w
  ∧ ((Armed cb sid w
      ∧ if decide (t = 0) then ¬ timeoutPending sid w
        else timeoutPending sid w)
     ∨ Settled cb 1 w).

Definition usesCallback (cb : Callback) (ev : Event) : bool :=
  match ev with
  | EvSendRequest _ _ _ _ _ h _ => bool_decide (h = Some cb)
  | _ => false
  end.

Definition reusesStream (sid : StreamID) (ev : Event) : bool :=
  match ev with
  | EvSendRequest _ _ _ _ _ _ (inl sid') => bool_decide (sid' = sid)
  | _ => false
  end.

Definition answers (sid : StreamID) (ev : Event) : bool :=
  match ev with
  | EvHandleMessage _ _ sid' _ => bool_decide (sid' = sid)
  | _ => false
  end.

(** What a call of the callback may carry, for a request whose router
    reply is [reply]: a response message, or one of [ErrTimeout], the dial
    error, the error of the router, [ErrInvalidResponseType]. *)
Definition payloadOk (reply : SendReply) (resp : option MinKadMessage)
  (err : option Error) : Prop :=
  match resp, err with
  | Some msg, None => is_Some (asResponse msg)
  | None, Some e =>
      e = ErrTimeout ∨ e = ErrUnknownPeer ∨ e = ErrInvalidResponseType
      ∨ reply = inr e
  | _, _ => False
  end.

End WithCallbacks.
End Sim.

(** ** Keys and the frontier, as the query engine uses them *)

(** Modelled from the spec: the key package, which is not part of these
    files.  "[compare(a,b)] → {-1,0,+1} (unsigned big-endian)", "a
    key-width mismatch is surfaced as an error kind [InvalidKey]",
    "[xor(a,b)] → Key". *)
Fixpoint cmpBits (a b : list bool) : comparison :=
  match a, b with
  | [], [] => Eq
  | [], _ :: _ => Lt
  | _ :: _, [] => Gt
  | x :: a', y :: b' =>
      match x, y with
      | false, true => Lt
      | true, false => Gt
      | _, _ => cmpBits a' b'
      end
  end.

Definition Compare (a b : KadKey) : Z + Error :=
  if Nat.eqb (length a) (length b) then
    inl (match cmpBits a b with Lt => -1 | Eq => 0 | Gt => 1 end)
  else inr ErrInvalidKey.

Fixpoint Xor (a b : KadKey) : KadKey :=
  match a, b with
  | x :: a', y :: b' => xorb x y :: Xor a' b'
  | _, _ => []
  end.

(** Modelled from the spec: the peer list (frontier) of the query package,
    which is not part of these files.  "An ordered collection of (NodeID,
    status); the order is ascending XOR distance from [target]", with the
    NodeID string as tie-break; "duplicates (by NodeID string) are
    ignored"; "[popClosestQueued]: the queued entry with minimum distance;
    transition its status to waiting"; "transitions are monotonic: queued →
    waiting, waiting → queried, waiting → unreachable; invalid transitions
    are ignored"; "[queuedCount]: number of entries currently in queued
    state". *)
Inductive peerStatus := queued | waiting | queried | unreachable.

#[global] Instance peerStatus_eq_dec : EqDecision peerStatus.
Proof. solve_decision. Defined.

Record peerList := mkPeerList {
  target : KadKey;
  entries : list (NodeID * peerStatus)
}.

Definition newPeerList (t : KadKey) : peerList := mkPeerList t [].

Definition closerTo (t : KadKey) (a b : NodeID) : bool :=
  match cmpBits (Xor (nid_Key a) t) (Xor (nid_Key b) t) with
  | Lt => true
  | Gt => false
  | Eq => String.ltb (nid_String a) (nid_String b)
  end.

Definition sameNode (a b : NodeID) : bool :=
  String.eqb (nid_String a) (nid_String b).

Fixpoint insertQueued (t : KadKey) (id : NodeID)
  (es : list (NodeID * peerStatus)) : list (NodeID * peerStatus) :=
  match es with
  | [] => [(id, queued)]
  | e :: es' =>
      if closerTo t id (fst e) then (id, queued) :: es
      else e :: insertQueued t id es'
  end.

Definition addOne (pl : peerList) (id : NodeID) : peerList :=
  if existsb (λ e, sameNode (fst e) id) (entries pl) then pl
  else mkPeerList (target pl) (insertQueued (target pl) id (entries pl)).

Definition addToPeerlist (ids : list NodeID) (pl : peerList) : peerList :=
  fold_left addOne ids pl.

Definition isQueued (e : NodeID * peerStatus) : bool :=
  bool_decide (snd e = queued).

Fixpoint popQueued (es : list (NodeID * peerStatus))
  : option NodeID * list (NodeID * peerStatus) :=
  match es with
  | [] => (None, [])
  | e :: es' =>
      if isQueued e then (Some (fst e), (fst e, waiting) :: es')
      else let '(r, es'') := popQueued es' in (r, e :: es'')
  end.

Definition popClosestQueued (pl : peerList) : option NodeID * peerList :=
  let '(r, es) := popQueued (entries pl) in (r, mkPeerList (target pl) es).

Definition validTransition (old new : peerStatus) : bool :=
  match old, new with
  | queued, waiting | waiting, queried | waiting, unreachable => true
  | _, _ => false
  end.

Definition updatePeerStatusInPeerlist (id : NodeID) (new : peerStatus)
  (pl : peerList) : peerList :=
  mkPeerList (target pl)
    (List.map (λ e, if sameNode (fst e) id && validTransition (snd e) new
                    then (fst e, new) else e)
              (entries pl)).

Definition queuedCount (pl : peerList) : Z :=
  Z.of_nat (length (List.filter isQueued (entries pl))).

(** ** The routing table, as the query engine uses it *)

(** [routingtable.RoutingTable] is an interface; the query engine is
    written against it, and so is its model. *)
Class RoutingTable (RT : Type) := {
  Self : RT → KadKey;
  AddPeer : NodeID → RT → RT * (bool * option Error);
  RemoveKey : KadKey → RT → RT * (bool * option Error);
  NearestPeers : KadKey → Z → RT → list NodeID + Error
}.

(** Modelled from the spec: a routing table with the key filter [None],
    used to run the engine on concrete inputs.  "No entry has a key equal
    to the origin key", "at most one entry per key (second insertion is a
    no-op returning false)", "[RemoveKey] removes the sole entry with that
    key if present", "[NearestPeers(target, n)] returns up to [n] NodeIDs
    ordered by ascending XOR distance to [target]". *)
Record Table := mkTable { origin : KadKey; members : list NodeID }.

Definition hasKey (k : KadKey) (id : NodeID) : bool :=
  bool_decide (nid_Key id = k).

Fixpoint insertByDistance (t : KadKey) (id : NodeID) (l : list NodeID)
  : list NodeID :=
  match l with
  | [] => [id]
  | x :: l' =>
      if closerTo t id x then id :: l else x :: insertByDistance t id l'
  end.

#[global] Instance Table_RoutingTable : RoutingTable Table := {|
  Self := origin;
  AddPeer id tb :=
    if hasKey (origin tb) id || existsb (hasKey (nid_Key id)) (members tb)
    then (tb, (false, None))
    else (mkTable (origin tb) (members tb ++ [id]), (true, None));
  RemoveKey k tb :=
    (mkTable (origin tb) (List.filter (λ id, negb (hasKey k id)) (members tb)),
     (existsb (hasKey k) (members tb), None));
  NearestPeers t n tb :=
    inl (take (Z.to_nat n)
           (fold_right (insertByDistance t) [] (members tb)))
|}.

(** ** The query engine, [query/simplequery/query.go] *)
Module SimpleQuery.

(** The closures that [query.go] hands to the scheduler. *)
Inductive Action :=
| ActNewRequest
  (* ba.BasicAction(q.newRequest), lines 96, 224 and 254 *)
| ActHandleResponse (id : NodeID) (resp : option (list NodeAddr))
  (* func(ctx) { q.handleResponse(ctx, id, resp) }, line 154 *)
| ActRequestError (id : NodeID) (err : Error).
  (* func(ctx) { q.requestError(ctx, id, err) }, line 149 *)

#[global] Instance Action_eq_dec : EqDecision Action.
Proof. solve_decision. Defined.

(** [endpoint.Endpoint] is an interface of an external collaborator: the
    engine's calls on it are recorded in order.  The handler passed to
    [SendRequestHandleResponse] is the closure [handleResp] of
    [newRequest], which captures the peer [id]. *)
Inductive EndpointCall :=
| CallMaybeAddToPeerstore (id : NodeAddr) (ttl : Duration)
| CallSendRequestHandleResponse (protoID : ProtocolID) (id : NodeID)
    (req : MinKadMessage) (timeout : Duration) (handleRespOf : NodeID).

#[global] Instance EndpointCall_eq_dec : EqDecision EndpointCall.
Proof. solve_decision. Defined.

Section Engine.

(** [RT] is the routing table behind the interface; [U] is the state that
    the user's [HandleResultFn] closure captures. *)
Context {RT : Type} `{RoutingTable RT} {U : Type}.

(** [HandleResultFn]: given the peer and its response, whether to stop and
    which nodes are useful.  The response is given by its closer nodes. *)
Definition HandleResultFn :=
  NodeID → list NodeAddr → U → bool * list NodeID * U.

(** The fields of [Config] that [NewSimpleQuery] reads. *)
Record Config := mkConfig {
  cfg_RoutingTable : RT;
  cfg_NumberUsefulCloserPeers : Z;
  cfg_ProtocolID : ProtocolID;
  cfg_Concurrency : Z;
  cfg_RequestTimeout : Duration;
  cfg_PeerstoreTTL : Duration;
  cfg_Endpoint : list EndpointCall;
  cfg_Scheduler : list Action;
  cfg_HandleResultsFunc : HandleResultFn;
  cfg_User : U
}.

(** [SimpleQuery].  [ctxDone] tells whether [q.ctx] is cancelled.  [rt],
    [sched] and [msgEndpoint] are references in Go; the fields hold the
    state of the routing table, the scheduler's FIFO and the calls made on
    the endpoint. *)
Record SimpleQuery := mkSimpleQuery {
  ctxDone : bool;
  done : bool;
  protoID : ProtocolID;
  req : MinKadMessage;
  concurrency : Z;
  peerstoreTTL : Duration;
  timeout : Duration;
  msgEndpoint : list EndpointCall;
  rt : RT;
  sched : list Action;
  inflightRequests : Z;
  peerlist : peerList;
  handleResultFn : HandleResultFn;
  user : U
}.

Definition set_ctxDone (b : bool) (q : SimpleQuery) : SimpleQuery :=
  mkSimpleQuery b (done q) (protoID q) (req q) (concurrency q)
    (peerstoreTTL q) (timeout q) (msgEndpoint q) (rt q) (sched q)
    (inflightRequests q) (peerlist q) (handleResultFn q) (user q).
Definition set_done (b : bool) (q : SimpleQuery) : SimpleQuery :=
  mkSimpleQuery (ctxDone q) b (protoID q) (req q) (concurrency q)
    (peerstoreTTL q) (timeout q) (msgEndpoint q) (rt q) (sched q)
    (inflightRequests q) (peerlist q) (handleResultFn q) (user q).
Definition set_msgEndpoint (l : list EndpointCall) (q : SimpleQuery)
  : SimpleQuery :=
  mkSimpleQuery (ctxDone q) (done q) (protoID q) (req q) (concurrency q)
    (peerstoreTTL q) (timeout q) l (rt q) (sched q)
    (inflightRequests q) (peerlist q) (handleResultFn q) (user q).
Definition set_rt (r : RT) (q : SimpleQuery) : SimpleQuery :=
  mkSimpleQuery (ctxDone q) (done q) (protoID q) (req q) (concurrency q)
    (peerstoreTTL q) (timeout q) (msgEndpoint q) r (sched q)
    (inflightRequests q) (peerlist q) (handleResultFn q) (user q).
Definition set_sched (l : list Action) (q : SimpleQuery) : SimpleQuery :=
  mkSimpleQuery (ctxDone q) (done q) (protoID q) (req q) (concurrency q)
    (peerstoreTTL q) (timeout q) (msgEndpoint q) (rt q) l
    (inflightRequests q) (peerlist q) (handleResultFn q) (user q).
Definition set_inflightRequests (n : Z) (q : SimpleQuery) : SimpleQuery :=
  mkSimpleQuery (ctxDone q) (done q) (protoID q) (req q) (concurrency q)
    (peerstoreTTL q) (timeout q) (msgEndpoint q) (rt q) (sched q)
    n (peerlist q) (handleResultFn q) (user q).
Definition set_peerlist (pl : peerList) (q : SimpleQuery) : SimpleQuery :=
  mkSimpleQuery (ctxDone q) (done q) (protoID q) (req q) (concurrency q)
    (peerstoreTTL q) (timeout q) (msgEndpoint q) (rt q) (sched q)
    (inflightRequests q) pl (handleResultFn q) (user q).
Definition set_user (u : U) (q : SimpleQuery) : SimpleQuery :=
  mkSimpleQuery (ctxDone q) (done q) (protoID q) (req q) (concurrency q)
    (peerstoreTTL q) (timeout q) (msgEndpoint q) (rt q) (sched q)
    (inflightRequests q) (peerlist q) (handleResultFn q) u.

(** [q.sched.EnqueueAction(ctx, a)] *)
Definition EnqueueAction (a : Action) (q : SimpleQuery) : SimpleQuery :=
  set_sched (sched q ++ [a]) q.

(** [for i := 0; i < n; i++ { q.sched.EnqueueAction(ctx, q.newRequest) }] *)
Definition enqueueNewRequests (n : Z) (q : SimpleQuery) : SimpleQuery :=
  set_sched (sched q ++ repeat ActNewRequest (Z.to_nat n)) q.

Definition Target (m : MinKadMessage) : KadKey :=
  match m with Request t => t | _ => [] end.

(** [NewSimpleQuery].  [applied] is the outcome of [cfg.Apply] on the
    default configuration and the options, which is code outside these
    files; [cancelled] tells whether [ctx] is cancelled.  A [nil] query
    is [None]. *)
Definition NewSimpleQuery (cancelled : bool) (req0 : MinKadMessage)
  (applied : Config + Error) : option SimpleQuery :=
  match applied with
  | inr _ => None
  | inl cfg =>
      match NearestPeers (Target req0) (cfg_NumberUsefulCloserPeers cfg)
              (cfg_RoutingTable cfg) with
      | inr _ => None
      | inl closestPeers =>
          let pl := addToPeerlist closestPeers (newPeerList (Target req0)) in
          let q := mkSimpleQuery cancelled false (cfg_ProtocolID cfg) req0
                     (cfg_Concurrency cfg) (cfg_PeerstoreTTL cfg)
                     (cfg_RequestTimeout cfg) (cfg_Endpoint cfg)
                     (cfg_RoutingTable cfg) (cfg_Scheduler cfg) 0 pl
                     (cfg_HandleResultsFunc cfg) (cfg_User cfg) in
          let requestsEvents :=
            if Z.of_nat (length closestPeers) <? concurrency q
            then Z.of_nat (length closestPeers) else concurrency q in
          Some (set_inflightRequests requestsEvents
                  (enqueueNewRequests requestsEvents q))
      end
  end.

Definition checkIfDone (q : SimpleQuery) : SimpleQuery * option Error :=
  if done q then (q, Some (ErrOther "query done"))
  else if ctxDone q then (set_done true q, Some (ErrOther "query cancelled"))
  else (q, None).

(** The closure [handleResp] of [newRequest], for the peer [id]. *)
Definition handleResp (id : NodeID) (resp : option (list NodeAddr))
  (err : option Error) (q : SimpleQuery) : SimpleQuery :=
  match err with
  | Some e => EnqueueAction (ActRequestError id e) q
  | None => EnqueueAction (ActHandleResponse id resp) q
  end.

Definition newRequest (q : SimpleQuery) : SimpleQuery :=
  match checkIfDone q with
  | (q1, Some _) => set_inflightRequests (inflightRequests q1 - 1) q1
  | (q1, None) =>
      let '(id, pl) := popClosestQueued (peerlist q1) in
      let q2 := set_peerlist pl q1 in
      match id with
      | None => set_inflightRequests (inflightRequests q2 - 1) q2
      | Some id =>
          if String.eqb (nid_String id) ""
          then set_inflightRequests (inflightRequests q2 - 1) q2
          else set_msgEndpoint
                 (msgEndpoint q2 ++
                  [CallSendRequestHandleResponse (protoID q2) id (req q2)
                     (timeout q2) id]) q2
      end
  end.

Definition requestError (id : NodeID) (err : Error) (q : SimpleQuery)
  : SimpleQuery :=
  let q1 := set_inflightRequests (inflightRequests q - 1) q in
  let q2 := if ctxDone q1 then q1
            else set_rt (fst (RemoveKey (nid_Key id) (rt q1))) q1 in
  match checkIfDone q2 with
  | (q3, Some _) => q3
  | (q3, None) =>
      EnqueueAction ActNewRequest
        (set_peerlist (updatePeerStatusInPeerlist id unreachable (peerlist q3))
           q3)
  end.

(** [id.Key().Compare(q.rt.Self())] gave [err == nil && c == 0]. *)
Definition isSelf (self : KadKey) (p : NodeAddr) : bool :=
  match Compare (nid_Key (na_NodeID p)) self with
  | inl c => Z.eqb c 0
  | inr _ => false
  end.

(** [append(closerPeers[:i], closerPeers[i+1:]...)] on the array [arr]
    that backs the slice [closerPeers], whose current length is [len]:
    the elements after position [i] move one place down inside the array,
    the array keeps its size, and the slice gets one shorter.  The slice
    expression [closerPeers[i+1:]] panics when [i+1 > len]. *)
Definition removeAt (i : nat) (arr : list NodeAddr) (len : nat)
  : option (list NodeAddr * nat) :=
  if (i + 1 <=? len)%nat then
    Some (take i arr ++ drop (i + 1) (take len arr) ++ drop (len - 1) arr,
          (len - 1)%nat)
  else None.

(** The loop [for i, id := range closerPeers] of [handleResponse], lines
    192-202.  The range expression is evaluated once: the loop runs over
    the positions of the original slice and reads each element from the
    shared array when its turn comes, while the body assigns a shorter
    slice to the variable [closerPeers].  [k] positions remain, [i] is
    the next one. *)
Fixpoint rangeCloserPeers (self : KadKey) (ttl : Duration) (k i : nat)
  (arr : list NodeAddr) (len : nat) (calls : list EndpointCall)
  : option (list NodeAddr * nat * list EndpointCall) :=
  match k with
  | O => Some (arr, len, calls)
  | S k' =>
      match arr !! i with
      | None => None
      | Some id =>
          if isSelf self id then
            match removeAt i arr len with
            | None => None
            | Some (arr', len') =>
                rangeCloserPeers self ttl k' (S i) arr' len' calls
            end
          else
            rangeCloserPeers self ttl k' (S i) arr len
              (calls ++ [CallMaybeAddToPeerstore id ttl])
      end
  end.

(** [handleResponse].  [resp.CloserNodes()] hands out the slice of the
    message, so the user's callback sees the array as the loop left it. *)
Definition handleResponse (id : NodeID) (resp : option (list NodeAddr))
  (q : SimpleQuery) : option SimpleQuery :=
  match checkIfDone q with
  | (q1, Some _) => Some q1
  | (q1, None) =>
      match resp with
      | None => Some (requestError id (ErrOther "nil response") q1)
      | Some closerPeers =>
          let q2 := set_inflightRequests (inflightRequests q1 - 1) q1 in
          let q3 := if (0 <? Z.of_nat (length closerPeers))
                    then set_rt (fst (AddPeer id (rt q2))) q2 else q2 in
          let q4 := set_peerlist
                      (updatePeerStatusInPeerlist id queried (peerlist q3)) q3 in
          match rangeCloserPeers (Self (rt q4)) (peerstoreTTL q4)
                  (length closerPeers) 0 closerPeers (length closerPeers)
                  (msgEndpoint q4) with
          | None => None
          | Some (arr, _, calls) =>
              let q5 := set_msgEndpoint calls q4 in
              let '(stop, usefulNodeID, u) :=
                handleResultFn q5 id arr (user q5) in
              let q6 := set_user u q5 in
              if stop then Some (set_done true q6)
              else
                let q7 := set_peerlist
                            (addToPeerlist usefulNodeID (peerlist q6)) q6 in
                let newRequestsToSend := concurrency q7 - inflightRequests q7 in
                let newRequestsToSend :=
                  if queuedCount (peerlist q7) <? newRequestsToSend
                  then queuedCount (peerlist q7) else newRequestsToSend in
                Some (set_inflightRequests
                        (inflightRequests q7 + newRequestsToSend)
                        (enqueueNewRequests newRequestsToSend q7))
          end
      end
  end.

(** Running a scheduled closure. *)
Definition runAction (a : Action) (q : SimpleQuery) : option SimpleQuery :=
  match a with
  | ActNewRequest => Some (newRequest q)
  | ActHandleResponse id resp => handleResponse id resp q
  | ActRequestError id err => Some (requestError id err q)
  end.

(** What happens to a query between its construction and its end: the
    scheduler runs one of its closures, or the caller cancels the
    context. *)
Inductive Event :=
| EvRun (a : Action)
| EvCancel.

Definition step (ev : Event) (q : SimpleQuery) : option SimpleQuery :=
  match ev with
  | EvRun a => runAction a q
  | EvCancel => Some (set_ctxDone true q)
  end.

Fixpoint run (evs : list Event) (q : SimpleQuery) : option SimpleQuery :=
  match evs with
  | [] => Some q
  | ev :: evs' =>
      match step ev q with
      | Some q' => run evs' q'
      | None => None
      end
  end.

(** The states a query goes through. *)
Definition reachable (q : SimpleQuery) : Prop :=
  ∃ cancelled req0 cfg evs q0,
    NewSimpleQuery cancelled req0 (inl cfg) = Some q0 ∧ run evs q0 = Some q.

(** The frontier's size. *)
Definition frontierSize (q : SimpleQuery) : Z :=
  Z.of_nat (length (entries (peerlist q))).

End Engine.
End SimpleQuery.

(** ** Concrete inputs

    A four-bit key space with origin [0000] and three peers, used to run
    the definitions above. *)
Module Inputs.
Import SimpleQuery.

Definition key0 : KadKey := [false; false; false; false].
Definition selfID : NodeID := mkNodeID "self" key0.
Definition peerA : NodeID := mkNodeID "QmPeerA" [false; false; false; true].
Definition peerB : NodeID := mkNodeID "QmPeerB" [false; false; true; false].
Definition peerC : NodeID := mkNodeID "QmPeerC" [false; true; false; false].
Definition addrOf (id : NodeID) : NodeAddr := mkNodeAddr id ["/sim/" +:+ nid_String id].

Definition table1 : Table := mkTable key0 [peerA].
Definition table3 : Table := mkTable key0 [peerA; peerB; peerC].

(** A callback that never stops and forwards every closer node. *)
Definition forwardAll : @HandleResultFn unit :=
  λ _ closer u, (false, List.map na_NodeID closer, u).

(** A callback that stops at the first response. *)
Definition stopAtOnce : @HandleResultFn unit :=
  λ _ _ u, (true, [], u).

Definition findA : MinKadMessage := Request [false; false; false; true].

Definition config (tb : Table) (alpha : Z) (f : @HandleResultFn unit)
  : @Config Table unit :=
  mkConfig tb 20 "/test/1.0.0" alpha 1000 60000 [] [] f tt.

(** The query over [table1] with one request at a time. *)
Definition query1 : option (@SimpleQuery Table unit) :=
  NewSimpleQuery false findA (inl (config table1 1 forwardAll)).

(** The query over [table3] with three requests at a time. *)
Definition query3 : option (@SimpleQuery Table unit) :=
  NewSimpleQuery false findA (inl (config table3 3 forwardAll)).

(** The query over [table3] whose callback stops at the first response. *)
Definition queryStop : option (@SimpleQuery Table unit) :=
  NewSimpleQuery false findA (inl (config table3 3 stopAtOnce)).

(** The events of a first round over [table3]: three requests go out,
    peer A answers with peers B and C, peer B fails. *)
Definition round1 : list Event :=
  [EvRun ActNewRequest; EvRun ActNewRequest; EvRun ActNewRequest;
   EvRun (ActHandleResponse peerA (Some [addrOf peerB; addrOf peerC]));
   EvRun (ActRequestError peerB ErrTimeout)].

(** The query whose callback stopped it at the first response. *)
Definition stopped : option (@SimpleQuery Table unit) :=
  queryStop ≫=
    run [EvRun ActNewRequest; EvRun ActNewRequest;
         EvRun (ActHandleResponse peerA (Some [addrOf peerB]))].

(** The query over [table3], cancelled after its first request went out. *)
Definition cancelled1 : option (@SimpleQuery Table unit) :=
  query3 ≫= run [EvRun ActNewRequest; EvCancel].


(** An endpoint that knows peer A, on a scheduler with nothing to do.
    Callbacks are numbered. *)
Definition endpointA : @Sim.Endpoint nat :=
  Sim.mkEndpoint selfID (Sim.mkScheduler [] [] 0%nat)
    {[ "QmPeerA" := addrOf peerA ]} {[ "QmPeerA" := Sim.CanConnect ]}
    ∅ ∅ ∅ [].

Definition worldA : @Sim.World nat := Sim.mkWorld endpointA [].

(** A request to peer A with callback 1, on stream 7, with the given
    timeout. *)
Definition sendA (timeout : Duration) : @Sim.Event nat :=
  Sim.EvSendRequest "/test/1.0.0" peerA findA (Response []) timeout (Some 1%nat)
    (inl 7%N).

(** Peer A answers on stream 7 with peer B, and the scheduler runs the
    call of the callback. *)
Definition answered : list (@Sim.Event nat) :=
  [Sim.EvHandleMessage peerA "/test/1.0.0" 7%N (Response [addrOf peerB]);
   Sim.EvRunOne].

(** Nobody answers; the scheduler runs what it has. *)
Definition unanswered : list (@Sim.Event nat) := [Sim.EvRunOne; Sim.EvRunOne].

(** The world in which the request [sendA 1000] is waiting for its
    response. *)
Definition waitingA : @Sim.World nat :=
  default worldA (Sim.step (sendA 1000) worldA).

(** On a new endpoint: peers A and B are added and a request with a
    timeout goes to each of them, on streams 7 and 8. *)
Definition twoStreams : list (@Sim.Event nat) :=
  [Sim.EvMaybeAddToPeerstore (addrOf peerA) 0; sendA 1000;
   Sim.EvMaybeAddToPeerstore (addrOf peerB) 0;
   Sim.EvSendRequest "/test/1.0.0" peerB findA (Response []) 1000
     (Some 2%nat) (inl 8%N)].

(** A server handler that answers every request with peer C. *)
Definition answerC : NodeID → MinKadMessage → MinKadMessage + Error :=
  λ _ _, inl (Response [addrOf peerC]).

End Inputs.

(** * Properties of the query engine *)
Module QueryFacts.
Import SimpleQuery.

Section Engine.
Context {RT : Type} `{RoutingTable RT} {U : Type}.

Abbreviation Query := (@SimpleQuery RT U).

(** ** What [checkIfDone] does *)

Lemma checkIfDone_done (q : Query) :
  done q = true → checkIfDone q = (q, Some (ErrOther "query done")).
Proof. intros Hd. unfold checkIfDone. by rewrite Hd. Qed.

Lemma checkIfDone_cancelled (q : Query) :
  done q = false → ctxDone q = true →
  checkIfDone q = (set_done true q, Some (ErrOther "query cancelled")).
Proof. intros Hd Hc. unfold checkIfDone. by rewrite Hd, Hc. Qed.

Lemma checkIfDone_active (q : Query) :
  done q = false → ctxDone q = false → checkIfDone q = (q, None).
Proof. intros Hd Hc. unfold checkIfDone. by rewrite Hd, Hc. Qed.

Lemma checkIfDone_frame (q q' : Query) r :
  checkIfDone q = (q', r) →
  inflightRequests q' = inflightRequests q ∧ concurrency q' = concurrency q
  ∧ rt q' = rt q ∧ sched q' = sched q ∧ peerlist q' = peerlist q
  ∧ msgEndpoint q' = msgEndpoint q ∧ ctxDone q' = ctxDone q.
Proof.
  unfold checkIfDone. intros Hc.
  destruct (done q) eqn:Hd; [|destruct (ctxDone q) eqn:Hx];
    simplify_eq; simpl; auto 10.
Qed.

Lemma checkIfDone_None (q q' : Query) :
  checkIfDone q = (q', None) →
  q' = q ∧ done q = false ∧ ctxDone q = false.
Proof.
  unfold checkIfDone. intros Hc.
  destruct (done q) eqn:Hd; [|destruct (ctxDone q) eqn:Hx]; simplify_eq; auto.
Qed.

(** ** The counter of requests in flight *)

Lemma newRequest_inflight (q : Query) :
  concurrency (newRequest q) = concurrency q
  ∧ inflightRequests q - 1 ≤ inflightRequests (newRequest q)
    ≤ inflightRequests q.
Proof.
  unfold newRequest.
  destruct (checkIfDone q) as [q1 [e|]] eqn:Hc;
    apply checkIfDone_frame in Hc as (Hi & Hk & _).
  - simpl. lia.
  - unfold popClosestQueued.
    destruct (popQueued (entries (peerlist q1))) as [[id|] es]; simpl.
    + destruct (String.eqb (nid_String id) ""); simpl; lia.
    + lia.
Qed.

Lemma requestError_inflight id err (q : Query) :
  concurrency (requestError id err q) = concurrency q
  ∧ inflightRequests (requestError id err q) = inflightRequests q - 1.
Proof.
  unfold requestError.
  match goal with |- context [checkIfDone ?x] =>
    destruct (checkIfDone x) as [q3 [e|]] eqn:Hc end;
    apply checkIfDone_frame in Hc as (Hi & Hk & _);
    revert Hi Hk; destruct (ctxDone _); simpl; intros; lia.
Qed.

(** The shape of a [handleResponse] that reaches the user's callback. *)
Lemma handleResponse_inv id closer (q q' : Query) :
  done q = false → ctxDone q = false →
  handleResponse id (Some closer) q = Some q' →
  ∃ arr len calls stop useful u,
    let pl := updatePeerStatusInPeerlist id queried (peerlist q) in
    let r := if 0 <? Z.of_nat (length closer)
             then fst (AddPeer id (rt q)) else rt q in
    rangeCloserPeers (Self r) (peerstoreTTL q) (length closer) 0 closer
      (length closer) (msgEndpoint q) = Some (arr, len, calls)
    ∧ handleResultFn q id arr (user q) = (stop, useful, u)
    ∧ concurrency q' = concurrency q ∧ ctxDone q' = false
    ∧ rt q' = r ∧ msgEndpoint q' = calls ∧ user q' = u
    ∧ if stop then
        done q' = true ∧ inflightRequests q' = inflightRequests q - 1
        ∧ sched q' = sched q ∧ peerlist q' = pl
      else
        let n := Z.min (concurrency q - (inflightRequests q - 1))
                       (queuedCount (addToPeerlist useful pl)) in
        done q' = false ∧ peerlist q' = addToPeerlist useful pl
        ∧ sched q' = sched q ++ repeat ActNewRequest (Z.to_nat n)
        ∧ inflightRequests q' = inflightRequests q - 1 + n.
Proof.
  intros Hd Hc. unfold handleResponse.
  rewrite (checkIfDone_active q Hd Hc).
  destruct (0 <? Z.of_nat (length closer)) eqn:Hlen; simpl.
  - destruct (rangeCloserPeers _ _ _ _ _ _ _) as [[[arr len] calls]|] eqn:Hr;
      [|done].
    simpl. destruct (handleResultFn q id arr (user q)) as [[stop useful] u] eqn:Hf.
    intros Hq'. exists arr, len, calls, stop, useful, u.
    split; [done|]. split; [done|].
    destruct stop; simplify_eq; simpl; rewrite ?Hd, ?Hc.
    + done.
    + repeat split; try done.
      * f_equal. f_equal. f_equal.
        destruct (Z.ltb_spec
          (queuedCount (addToPeerlist useful
             (updatePeerStatusInPeerlist id queried (peerlist q))))
          (concurrency q - (inflightRequests q - 1))); lia.
      * destruct (Z.ltb_spec
          (queuedCount (addToPeerlist useful
             (updatePeerStatusInPeerlist id queried (peerlist q))))
          (concurrency q - (inflightRequests q - 1))); lia.
  - destruct (rangeCloserPeers _ _ _ _ _ _ _) as [[[arr len] calls]|] eqn:Hr;
      [|done].
    simpl. destruct (handleResultFn q id arr (user q)) as [[stop useful] u] eqn:Hf.
    intros Hq'. exists arr, len, calls, stop, useful, u.
    split; [done|]. split; [done|].
    destruct stop; simplify_eq; simpl; rewrite ?Hd, ?Hc.
    + done.
    + repeat split; try done.
      * f_equal. f_equal. f_equal.
        destruct (Z.ltb_spec
          (queuedCount (addToPeerlist useful
             (updatePeerStatusInPeerlist id queried (peerlist q))))
          (concurrency q - (inflightRequests q - 1))); lia.
      * destruct (Z.ltb_spec
          (queuedCount (addToPeerlist useful
             (updatePeerStatusInPeerlist id queried (peerlist q))))
          (concurrency q - (inflightRequests q - 1))); lia.
Qed.


Lemma queuedCount_nonneg (pl : peerList) : 0 ≤ queuedCount pl.
Proof. unfold queuedCount. lia. Qed.

Lemma handleResponse_inflight id resp (q q' : Query) :
  handleResponse id resp q = Some q' →
  inflightRequests q ≤ concurrency q →
  concurrency q' = concurrency q
  ∧ inflightRequests q' ≤ concurrency q'
  ∧ inflightRequests q - 1 ≤ inflightRequests q'.
Proof.
  intros Hq Hinv.
  destruct (done q) eqn:Hd.
  { unfold handleResponse in Hq. rewrite (checkIfDone_done q Hd) in Hq.
    simplify_eq. lia. }
  destruct (ctxDone q) eqn:Hc.
  { unfold handleResponse in Hq. rewrite (checkIfDone_cancelled q Hd Hc) in Hq.
    simplify_eq. simpl. lia. }
  destruct resp as [closer|].
  - destruct (handleResponse_inv id closer q q' Hd Hc Hq)
      as (arr & len & calls & stop & useful & u & _ & _ & Hk & _ & _ & _ & _ & Hs).
    destruct stop.
    + destruct Hs as (_ & Hi & _). lia.
    + destruct Hs as (_ & _ & _ & Hi).
      pose proof (queuedCount_nonneg
        (addToPeerlist useful
           (updatePeerStatusInPeerlist id queried (peerlist q)))).
      lia.
  - unfold handleResponse in Hq. rewrite (checkIfDone_active q Hd Hc) in Hq.
    simplify_eq.
    destruct (requestError_inflight id (ErrOther "nil response") q) as [-> ->].
    lia.
Qed.

Lemma step_inflight ev (q q' : Query) :
  step ev q = Some q' →
  inflightRequests q ≤ concurrency q →
  concurrency q' = concurrency q
  ∧ inflightRequests q' ≤ concurrency q'
  ∧ inflightRequests q - 1 ≤ inflightRequests q'.
Proof.
  destruct ev as [[|id resp|id err]|]; simpl; intros Hq Hinv.
  - simplify_eq. destruct (newRequest_inflight q) as [-> ?]. lia.
  - by apply (handleResponse_inflight id resp).
  - simplify_eq. destruct (requestError_inflight id err q) as [-> ->]. lia.
  - simplify_eq. simpl. lia.
Qed.

Lemma NewSimpleQuery_inflight cancelled req0 cfg (q : Query) :
  NewSimpleQuery cancelled req0 (inl cfg) = Some q →
  concurrency q = cfg_Concurrency cfg
  ∧ inflightRequests q ≤ concurrency q.
Proof.
  unfold NewSimpleQuery.
  destruct (NearestPeers _ _ _) as [closest|]; [|done].
  intros Hq. simplify_eq. simpl.
  destruct (Z.ltb_spec (Z.of_nat (length closest)) (cfg_Concurrency cfg)); lia.
Qed.

Lemma run_inflight evs : ∀ (q q' : Query),
  run evs q = Some q' →
  inflightRequests q ≤ concurrency q →
  concurrency q' = concurrency q
  ∧ inflightRequests q' ≤ concurrency q'
  ∧ inflightRequests q - Z.of_nat (length evs) ≤ inflightRequests q'.
Proof.
  induction evs as [|ev evs IH]; simpl; intros q q' Hrun Hinv.
  - simplify_eq. lia.
  - destruct (step ev q) as [q1|] eqn:Hstep; [|done].
    destruct (step_inflight ev q q1 Hstep Hinv) as (Hk & Hle & Hlow).
    destruct (IH q1 q' Hrun Hle) as (Hk' & Hle' & Hlow').
    lia.
Qed.

(** The counter moves down by at most one per executed action: on a run
    of [n] events it stays within [n] of its first value (and below the
    concurrency), which is why it is modelled by an unbounded integer. *)
Lemma inflight_lower_bound cancelled req0 cfg evs (q0 q : Query) :
  NewSimpleQuery cancelled req0 (inl cfg) = Some q0 →
  run evs q0 = Some q →
  inflightRequests q0 - Z.of_nat (length evs) ≤ inflightRequests q
  ≤ cfg_Concurrency cfg.
Proof.
  intros Hnew Hrun.
  destruct (NewSimpleQuery_inflight _ _ _ _ Hnew) as [Hk Hle].
  destruct (run_inflight evs q0 q Hrun Hle) as (Hk' & Hle' & Hlow). lia.
Qed.

(** C2.  At every point between scheduled actions, after any sequence of
    [newRequest], [handleResponse] and [requestError] steps (and
    cancellations) from the construction of the query, the counter of
    requests in flight is at most the configured concurrency. *)
Theorem inflight_le_concurrency cancelled req0 cfg evs (q0 q : Query) :
  NewSimpleQuery cancelled req0 (inl cfg) = Some q0 →
  run evs q0 = Some q →
  inflightRequests q ≤ concurrency q ∧ concurrency q = cfg_Concurrency cfg.
Proof.
  intros Hnew Hrun.
  destruct (NewSimpleQuery_inflight _ _ _ _ Hnew) as [Hk Hle].
  destruct (run_inflight evs q0 q Hrun Hle) as (Hk' & Hle' & _).
  split; [done | congruence].
Qed.

Lemma reachable_inflight (q : Query) :
  reachable q → inflightRequests q ≤ concurrency q.
Proof.
  intros (cancelled & req0 & cfg & evs & q0 & Hnew & Hrun).
  by destruct (inflight_le_concurrency _ _ _ _ _ _ Hnew Hrun).
Qed.

(** ** Errors and cancellation *)

(** C6.  A [requestError] that runs while the context of the query is
    cancelled leaves the routing table as it was: [RemoveKey] is not
    called. *)
Theorem requestError_cancelled_keeps_rt id err (q : Query) :
  ctxDone q = true → rt (requestError id err q) = rt q.
Proof.
  intros Hc. unfold requestError. simpl. rewrite Hc.
  match goal with |- context [checkIfDone ?x] =>
    destruct (checkIfDone x) as [q3 [e|]] eqn:Hq end.
  - by apply checkIfDone_frame in Hq as (_ & _ & -> & _).
  - apply checkIfDone_None in Hq as (_ & _ & Hx). simpl in Hx. congruence.
Qed.

(** What [requestError] does to a query that is neither done nor
    cancelled: the counter goes down by one, the key of the peer is
    removed from the routing table, the peer becomes unreachable and one
    [newRequest] is enqueued; the counter is not raised for it. *)
Lemma requestError_active id err (q : Query) :
  done q = false → ctxDone q = false →
  requestError id err q =
    EnqueueAction ActNewRequest
      (set_peerlist (updatePeerStatusInPeerlist id unreachable (peerlist q))
         (set_rt (fst (RemoveKey (nid_Key id) (rt q)))
            (set_inflightRequests (inflightRequests q - 1) q))).
Proof.
  intros Hd Hc. unfold requestError. simpl. rewrite Hc.
  rewrite checkIfDone_active by done. done.
Qed.

(** C3, as the code has it.  Once [done] is set, [handleResponse]
    changes nothing; [newRequest] only lowers the counter of requests in
    flight by one; [requestError] lowers the counter by one and, unless
    the context is cancelled, removes the key of the peer from the routing
    table.  None of them touches [done], the frontier, the scheduler or
    the endpoint. *)
Theorem done_query_steps id resp err (q : Query) :
  done q = true →
  handleResponse id resp q = Some q
  ∧ newRequest q = set_inflightRequests (inflightRequests q - 1) q
  ∧ requestError id err q =
      (if ctxDone q
       then set_inflightRequests (inflightRequests q - 1) q
       else set_rt (fst (RemoveKey (nid_Key id) (rt q)))
              (set_inflightRequests (inflightRequests q - 1) q)).
Proof.
  intros Hd. repeat split.
  - unfold handleResponse. by rewrite checkIfDone_done.
  - unfold newRequest. by rewrite checkIfDone_done.
  - unfold requestError. simpl.
    destruct (ctxDone q) eqn:Hc; by rewrite checkIfDone_done.
Qed.

(** ** Scheduling of new requests *)

(** C7.  A [handleResponse] that reaches the user's callback and is not
    stopped by it enqueues min(concurrency − inflight, queuedCount)
    [newRequest] actions and raises the counter by that number; inflight
    is the counter after the decrement for the answered request, and
    queuedCount is read from the frontier after the useful nodes of the
    callback were added. *)
Theorem handleResponse_schedules_min id closer (q q' : Query) :
  reachable q →
  handleResponse id (Some closer) q = Some q' →
  done q' = false →
  let n := Z.min (concurrency q - (inflightRequests q - 1))
                 (queuedCount (peerlist q')) in
  0 ≤ n
  ∧ sched q' = sched q ++ repeat ActNewRequest (Z.to_nat n)
  ∧ inflightRequests q' = inflightRequests q - 1 + n
  ∧ ∃ arr useful u,
      handleResultFn q id arr (user q) = (false, useful, u)
      ∧ peerlist q' =
          addToPeerlist useful
            (updatePeerStatusInPeerlist id queried (peerlist q)).
Proof.
  intros Hreach Hq Hd'.
  pose proof (reachable_inflight q Hreach) as Hinv.
  destruct (done q) eqn:Hd.
  { unfold handleResponse in Hq. rewrite (checkIfDone_done q Hd) in Hq.
    simplify_eq. congruence. }
  destruct (ctxDone q) eqn:Hc.
  { unfold handleResponse in Hq. rewrite (checkIfDone_cancelled q Hd Hc) in Hq.
    simplify_eq. }
  destruct (handleResponse_inv id closer q q' Hd Hc Hq)
    as (arr & len & calls & stop & useful & u & _ & Hf & _ & _ & _ & _ & _ & Hs).
  destruct stop.
  { destruct Hs as (Hdone & _). congruence. }
  destruct Hs as (_ & Hpl & Hsched & Hi). simpl. rewrite Hpl.
  pose proof (queuedCount_nonneg
    (addToPeerlist useful (updatePeerStatusInPeerlist id queried (peerlist q)))).
  repeat split; [lia | done | done |].
  by exists arr, useful, u.
Qed.

(** *** The frontier after seeding *)

Lemma insertQueued_length t id es :
  length (insertQueued t id es) = S (length es).
Proof.
  induction es as [|e es IH]; simpl; [done|].
  destruct (closerTo t id (fst e)); simpl; by rewrite ?IH.
Qed.

Lemma insertQueued_known t id es x :
  existsb (λ e, sameNode (fst e) x) (insertQueued t id es)
  = sameNode id x || existsb (λ e, sameNode (fst e) x) es.
Proof.
  induction es as [|e es IH]; simpl; [done|].
  destruct (closerTo t id (fst e)); simpl; [done|].
  rewrite IH. by destruct (sameNode (fst e) x), (sameNode id x).
Qed.

Lemma addToPeerlist_length ids : ∀ pl,
  NoDup (List.map nid_String ids) →
  (∀ id, id ∈ ids → existsb (λ e, sameNode (fst e) id) (entries pl) = false) →
  length (entries (addToPeerlist ids pl))
  = (length (entries pl) + length ids)%nat.
Proof.
  induction ids as [|id ids IH]; simpl; intros pl Hnd Hnew; [lia|].
  apply NoDup_cons in Hnd as [Hnotin Hnd].
  unfold addToPeerlist in *. simpl.
  assert (Hid : existsb (λ e, sameNode (fst e) id) (entries pl) = false)
    by (apply Hnew; left).
  unfold addOne at 2. rewrite Hid.
  rewrite IH; simpl.
  - rewrite insertQueued_length. lia.
  - done.
  - intros x Hx. rewrite insertQueued_known.
    rewrite (Hnew x) by (by right).
    rewrite orb_false_r. unfold sameNode.
    apply String.eqb_neq. intros Heq. apply Hnotin.
    rewrite Heq. apply list_elem_of_In, in_map, list_elem_of_In, Hx.
Qed.

(** C8.  At construction, for a seed list without repeated node
    identifiers (as [NearestPeers] returns from a table with one entry per
    key), the frontier holds the seeds, min(frontier-size, concurrency)
    [newRequest] actions are enqueued, and the counter of requests in
    flight is set to that number. *)
Theorem NewSimpleQuery_schedules_min cancelled req0 cfg closest :
  NearestPeers (Target req0) (cfg_NumberUsefulCloserPeers cfg)
    (cfg_RoutingTable cfg) = inl closest →
  NoDup (List.map nid_String closest) →
  ∃ q : Query,
    NewSimpleQuery cancelled req0 (inl cfg) = Some q
    ∧ frontierSize q = Z.of_nat (length closest)
    ∧ sched q = cfg_Scheduler cfg
                ++ repeat ActNewRequest
                     (Z.to_nat (Z.min (frontierSize q) (cfg_Concurrency cfg)))
    ∧ inflightRequests q = Z.min (frontierSize q) (cfg_Concurrency cfg).
Proof.
  intros Hnear Hnd. unfold NewSimpleQuery. rewrite Hnear.
  eexists. split; [reflexivity|].
  assert (Hsize : length (entries (addToPeerlist closest
                                     (newPeerList (Target req0))))
                  = length closest).
  { rewrite addToPeerlist_length; simpl; [lia | done | done]. }
  unfold frontierSize. simpl. rewrite Hsize.
  destruct (Z.ltb_spec (Z.of_nat (length closest)) (cfg_Concurrency cfg)).
  - rewrite Z.min_l by lia. done.
  - rewrite Z.min_r by lia. done.
Qed.

End Engine.

(** ** The engine on concrete inputs *)

Import Inputs.

Lemma inflight_le_concurrency_witness :
  ∃ q0 q, query3 = Some q0 ∧ run round1 q0 = Some q
          ∧ inflightRequests q ≤ concurrency q ∧ concurrency q = 3.
Proof.
  destruct query3 as [q0|] eqn:H0; [|vm_compute in H0; discriminate].
  destruct (run round1 q0) as [q|] eqn:H1.
  - exists q0, q. split; [reflexivity|]. split; [exact H1|].
    apply (inflight_le_concurrency false findA (config table3 3 forwardAll)
             round1 q0 q H0 H1).
  - vm_compute in H0. injection H0 as <-. vm_compute in H1. discriminate.
Defined.

(** C1.  On the query over [table1] with concurrency 1, the only request
    goes out to peer A and fails.  [requestError] lowers the counter of
    requests in flight from 1 to 0 and enqueues the replacement
    [newRequest] without counting it; when the replacement finds no queued
    peer, the counter of "requests that are either in flight or
    scheduled" is -1. *)
Theorem requestError_replacement_not_counted :
  ∃ q1 q2,
    (query1 ≫= run [EvRun ActNewRequest]) = Some q1
    ∧ inflightRequests q1 = 1
    ∧ requestError peerA ErrTimeout q1 = q2
    ∧ sched q2 = sched q1 ++ [ActNewRequest]
    ∧ inflightRequests q2 = 0
    ∧ inflightRequests (newRequest q2) = -1.
Proof.
  eexists _, _. split; [vm_compute; reflexivity|].
  split; [reflexivity|]. split; [reflexivity|].
  split; [reflexivity|]. split; reflexivity.
Qed.

(** C3, as stated, fails: on a query that is done because its callback
    stopped it, a late [newRequest] still lowers the counter of requests
    in flight, and a late [requestError] lowers it too and removes the
    peer from the routing table. *)
Lemma done_query_not_frozen :
  ∃ q, stopped = Some q
       ∧ done q = true
       ∧ inflightRequests (newRequest q) ≠ inflightRequests q
       ∧ inflightRequests (requestError peerB ErrTimeout q) ≠ inflightRequests q
       ∧ rt (requestError peerB ErrTimeout q) ≠ rt q.
Proof.
  eexists. split; [vm_compute; reflexivity|].
  split; [reflexivity|]. repeat split; vm_compute; discriminate.
Qed.

Lemma done_query_steps_witness :
  ∃ q, stopped = Some q
       ∧ handleResponse peerB (Some [addrOf peerC]) q = Some q
       ∧ newRequest q = set_inflightRequests (inflightRequests q - 1) q
       ∧ requestError peerB ErrTimeout q =
           (if ctxDone q
            then set_inflightRequests (inflightRequests q - 1) q
            else set_rt (fst (RemoveKey (nid_Key peerB) (rt q)))
                   (set_inflightRequests (inflightRequests q - 1) q)).
Proof.
  eexists. split; [vm_compute; reflexivity|].
  apply (done_query_steps peerB (Some [addrOf peerC]) ErrTimeout).
  reflexivity.
Defined.

(** C4.  Peer A answers with the origin followed by peers B and C.  The
    loop drops the origin from the slice while ranging over it, which
    moves B into the position just visited: [MaybeAddToPeerstore] is
    called for C twice and never for B. *)
Theorem handleResponse_skips_peer_after_self :
  ∃ q1 q2,
    (query3 ≫= run [EvRun ActNewRequest]) = Some q1
    ∧ handleResponse peerA
        (Some [addrOf selfID; addrOf peerB; addrOf peerC]) q1 = Some q2
    ∧ msgEndpoint q2 =
        msgEndpoint q1 ++ [CallMaybeAddToPeerstore (addrOf peerC) 60000;
                           CallMaybeAddToPeerstore (addrOf peerC) 60000]
    ∧ CallMaybeAddToPeerstore (addrOf peerB) 60000 ∉ msgEndpoint q2.
Proof.
  eexists _, _. split; [vm_compute; reflexivity|].
  split; [vm_compute; reflexivity|]. split; [reflexivity|].
  apply not_elem_of_cons. split; [discriminate|].
  apply not_elem_of_cons. split; [discriminate|].
  apply not_elem_of_cons. split; [discriminate|].
  apply not_elem_of_nil.
Qed.

(** A response that names the origin twice in a row makes the second
    slice expression run out of bounds. *)
Example handleResponse_self_twice_panics :
  ∃ q1, (query3 ≫= run [EvRun ActNewRequest]) = Some q1
        ∧ handleResponse peerA (Some [addrOf selfID; addrOf selfID]) q1 = None.
Proof. eexists. split; [vm_compute; reflexivity | reflexivity]. Qed.

Lemma requestError_cancelled_keeps_rt_witness :
  ∃ q, cancelled1 = Some q
       ∧ rt (requestError peerA ErrTimeout q) = rt q.
Proof.
  eexists. split; [vm_compute; reflexivity|].
  apply (requestError_cancelled_keeps_rt peerA ErrTimeout). reflexivity.
Defined.

Lemma handleResponse_schedules_min_witness :
  ∃ q0 q q',
    query3 = Some q0
    ∧ run [EvRun ActNewRequest] q0 = Some q
    ∧ handleResponse peerA (Some [addrOf peerB; addrOf peerC]) q = Some q'
    ∧ sched q' = sched q ++ [ActNewRequest]
    ∧ inflightRequests q' = 3.
Proof.
  eexists _, _, _. split; [reflexivity|]. split; [reflexivity|].
  split; [vm_compute; reflexivity|].
  match goal with |- sched ?q' = sched ?q ++ _ ∧ _ =>
    destruct (handleResponse_schedules_min peerA
                [addrOf peerB; addrOf peerC] q q')
      as (_ & Hs & Hi & _)
  end.
  - exists false, findA, (config table3 3 forwardAll),
      [EvRun ActNewRequest]. eexists. split; reflexivity.
  - reflexivity.
  - reflexivity.
  - split; [exact Hs | exact Hi].
Defined.

Lemma NewSimpleQuery_schedules_min_witness :
  ∃ q, query3 = Some q
       ∧ frontierSize q = 3
       ∧ sched q = [ActNewRequest; ActNewRequest; ActNewRequest]
       ∧ inflightRequests q = 3.
Proof.
  destruct (NewSimpleQuery_schedules_min false findA
              (config table3 3 forwardAll) [peerA; peerB; peerC])
    as (q & Hq & Hsize & Hsched & Hi).
  - reflexivity.
  - repeat constructor; rewrite ?elem_of_cons; try rewrite elem_of_nil;
      intros Hx; decompose [or] Hx; discriminate || done.
  - exists q. split; [exact Hq|]. rewrite Hsize in Hsched, Hi.
    split; [exact Hsize|]. split; [exact Hsched | exact Hi].
Defined.

End QueryFacts.

(** * Properties of the simulated endpoint *)
Module SimFacts.
Import Sim.

Section WithCallbacks.
Context {Callback : Type} `{EqDecision Callback}.

Abbreviation Endpoint := (@Sim.Endpoint Callback).
Abbreviation World := (@Sim.World Callback).
Abbreviation Event := (@Sim.Event Callback).

(** ** The peerstore *)

(** C9.  [MaybeAddToPeerstore] returns a nil error, and a second call
    with the same address leaves the endpoint (its peerstore and its
    connection statuses included) as the first call left it. *)
Theorem MaybeAddToPeerstore_idempotent (id : NodeAddr) (ttl : Duration)
  (e : Endpoint) :
  snd (MaybeAddToPeerstore id ttl e) = None
  ∧ MaybeAddToPeerstore id ttl (fst (MaybeAddToPeerstore id ttl e))
    = (fst (MaybeAddToPeerstore id ttl e), None).
Proof.
  split; [reflexivity|].
  unfold MaybeAddToPeerstore, set_peerstore, set_connStatus.
  destruct (peerstore e !! nid_String (na_NodeID id)) as [a|] eqn:Hp;
    destruct (connStatus e !! nid_String (na_NodeID id)) as [c|] eqn:Hc;
    do 4 (cbn; rewrite ?Hp, ?Hc, ?lookup_insert_eq); reflexivity.
Qed.

(** ** Every event has one of the listed effects *)

Lemma DialPeer_frame (id : NodeID) (e : Endpoint) :
  let e' := fst (DialPeer id e) in
  streamFollowup e' = streamFollowup e ∧ streamTimeout e' = streamTimeout e
  ∧ sched e' = sched e ∧ peerstore e' = peerstore e.
Proof.
  unfold DialPeer.
  destruct (connStatus e !! nid_String id) as [[]|]; simpl; auto.
Qed.

Lemma learnAll_frame (ps : list NodeAddr) : ∀ e : Endpoint,
  streamFollowup (learnAll ps e) = streamFollowup e
  ∧ streamTimeout (learnAll ps e) = streamTimeout e
  ∧ sched (learnAll ps e) = sched e.
Proof.
  induction ps as [|p ps IH]; intros e; simpl; [done|].
  destruct (IH (learn p e)) as (-> & -> & ->). done.
Qed.

Lemma learnAll_followup ps (e : Endpoint) :
  streamFollowup (learnAll ps e) = streamFollowup e.
Proof. apply learnAll_frame. Qed.

Lemma learnAll_timeout ps (e : Endpoint) :
  streamTimeout (learnAll ps e) = streamTimeout e.
Proof. apply learnAll_frame. Qed.

Lemma learnAll_sched ps (e : Endpoint) : sched (learnAll ps e) = sched e.
Proof. apply learnAll_frame. Qed.

Lemma step_effect (ev : Event) (w w' : World) :
  step ev w = Some w' → effect w w' ev.
Proof.
  destruct ev as [id|id ttl|protoID id req resp timeout h reply
                  |id protoID sid msg|protoID rh|protoID|pa|]; simpl.
  - intros [= <-]. destruct (DialPeer_frame id (endpoint w)) as (Hf & Ht & Hs & _).
    apply eff_quiet; [done|].
    unfold unchanged, followups, timeouts, fifo, plan, serial; simpl.
    rewrite Hf, Ht, Hs. done.
  - intros [= <-]. apply eff_quiet; [done|].
    unfold unchanged, followups, timeouts, fifo, plan, serial,
      MaybeAddToPeerstore; simpl; repeat case_match; done.
  - unfold SendRequestHandleResponse.
    destruct (DialPeer_frame id (endpoint w)) as (Hf & Ht & Hs & _).
    destruct (DialPeer id (endpoint w)) as [e1 [derr|]] eqn:Hdial; simpl in *.
    + intros [= <-].
      eapply (eff_fail _ _ _ _ _ _ _ _ _ derr);
        unfold followups, timeouts, fifo, plan, serial, opened; simpl;
        rewrite ?Hdial, ?Hf, ?Ht, ?Hs; try reflexivity.
      left. unfold DialPeer in Hdial. repeat case_match; congruence.
    + destruct (peerstore e1 !! nid_String id) as [addr|]; [|done].
      destruct reply as [sid|err].
      * destruct (Z.eqb_spec timeout 0) as [->|Hne].
        -- intros [= <-]. apply eff_open;
             unfold followups, timeouts, fifo, plan, serial, opened; simpl;
             rewrite ?Hdial, ?Hf, ?Ht, ?Hs; reflexivity.
        -- intros [= <-]. apply eff_open_timed; [done|..];
             unfold followups, timeouts, fifo, plan, serial, opened; simpl;
             rewrite ?Hdial, ?Hf, ?Ht, ?Hs; reflexivity.
      * intros [= <-].
        eapply (eff_fail _ _ _ _ _ _ _ _ _ err);
          unfold followups, timeouts, fifo, plan, serial, opened; simpl;
          rewrite ?Hdial, ?Hf, ?Ht, ?Hs; try reflexivity.
        by right.
  - intros [= <-].
    destruct (streamFollowup (endpoint w) !! sid) as [f|] eqn:Hfol.
    + apply (eff_answer _ _ _ _ _ _ f); [exact Hfol|..];
        unfold followups, timeouts, fifo, plan, serial, answerPayload,
          onEndpoint, HandleMessage, ResponseHandlerFn in *; cbn [endpoint];
        rewrite Hfol;
        destruct (streamTimeout (endpoint w) !! sid) as [pa|];
        destruct (asResponse msg) as [closer|]; simpl;
        destruct f as [cb|]; simpl;
        rewrite ?learnAll_followup, ?learnAll_timeout, ?learnAll_sched;
        simpl; rewrite ?app_nil_r; reflexivity.
    + apply eff_request; [exact Hfol|].
      unfold unchanged, followups, timeouts, fifo, plan, serial, onEndpoint,
        HandleMessage, ResponseHandlerFn in *; cbn [endpoint].
      rewrite Hfol. repeat case_match; done.
  - intros [= <-]. apply eff_quiet; [done|].
    unfold unchanged, followups, timeouts, fifo, plan, serial,
      AddRequestHandler; simpl; repeat case_match; done.
  - intros [= <-]. by apply eff_quiet.
  - intros [= <-]. apply eff_elapse; reflexivity.
  - destruct (queue (sched (endpoint w))) as [|a rest] eqn:Hq.
    + intros [= <-]. by apply eff_idle.
    + destruct a as [[cb|] resp err|sid]; simpl; [|done|].
      * intros [= <-].
        by apply (eff_run_deliver _ _ cb resp err rest).
      * intros Hw'. apply (eff_run_timeout _ _ sid rest); [exact Hq|..];
          destruct (streamFollowup (endpoint w) !! sid) as [[cb|]|] eqn:Hfol;
          simplify_eq; unfold followups, timeouts, fifo, plan, serial; simpl;
          rewrite ?Hfol, ?app_nil_r; reflexivity.
Qed.


(** ** Counting in lists *)

Lemma count_app {A} (f : A → bool) (l1 l2 : list A) :
  length (List.filter f (l1 ++ l2))
  = (length (List.filter f l1) + length (List.filter f l2))%nat.
Proof. by rewrite List.filter_app, length_app. Qed.

Lemma filter_none {A} (f : A → bool) (l : list A) :
  (∀ a, a ∈ l → f a = false) → List.filter f l = [].
Proof.
  induction l as [|x l IH]; simpl; intros Hl; [done|].
  rewrite (Hl x) by left. apply IH. intros a Ha. apply Hl. by right.
Qed.

Lemma elem_of_List_filter {A} (f : A → bool) (l : list A) (x : A) :
  x ∈ List.filter f l ↔ x ∈ l ∧ f x = true.
Proof. rewrite !list_elem_of_In. apply List.filter_In. Qed.

Lemma elem_of_List_map {A B} (g : A → B) (l : list A) (y : B) :
  y ∈ List.map g l ↔ ∃ x, g x = y ∧ x ∈ l.
Proof.
  rewrite list_elem_of_In, List.in_map_iff.
  split; intros (x & Hx & Hin); exists x; by rewrite list_elem_of_In in *.
Qed.

Lemma elem_of_map_filter {A B} (g : A → B) (f : A → bool) (l : list A) y :
  y ∈ List.map g (List.filter f l) → y ∈ List.map g l.
Proof.
  rewrite !elem_of_List_map. intros (x & Hx & Hin).
  apply elem_of_List_filter in Hin as [Hin _]. eauto.
Qed.

(** ** A callback that is the follow-up of no stream

    Its queued and made calls are never lost and never multiplied, and no
    new ones appear. *)

Ltac unfold_views :=
  unfold Settled, Armed, fresh, timeoutPending, unregistered, queuedFor,
    deliveredTo, deliveriesTo, noPlannedDelivery, plannedActions, payloads,
    unchanged in *.

Ltac rewrite_all_views w' :=
  repeat match goal with H : _ ∧ _ |- _ => destruct H end;
  repeat match goal with
         | H : followups w' = _ |- _ => rewrite H in *; clear H
         | H : timeouts w' = _ |- _ => rewrite H in *; clear H
         | H : fifo w' = _ |- _ => rewrite H in *; clear H
         | H : plan w' = _ |- _ => rewrite H in *; clear H
         | H : serial w' = _ |- _ => rewrite H in *; clear H
         | H : delivered w' = _ |- _ => rewrite H in *; clear H
         end.

Ltac rewrite_views w' :=
  repeat match goal with H : _ ∧ _ |- _ => destruct H end;
  repeat match goal with
         | H : followups w' = _ |- _ => rewrite H; clear H
         | H : fifo w' = _ |- _ => rewrite H; clear H
         | H : plan w' = _ |- _ => rewrite H; clear H
         | H : delivered w' = _ |- _ => rewrite H; clear H
         end.

Lemma delivers_other (cb : Callback) (h : option Callback) resp err :
  h ≠ Some cb → delivers cb (ActDeliver h resp err) = false.
Proof. intros Hne. simpl. by apply bool_decide_eq_false. Qed.

Lemma isFor_other (cb c : Callback) resp err :
  c ≠ cb → isFor cb (mkDelivery c resp err) = false.
Proof. intros Hne. unfold isFor. simpl. by apply bool_decide_eq_false. Qed.

Lemma isFor_same (cb : Callback) resp err :
  isFor cb (mkDelivery cb resp err) = true.
Proof. unfold isFor. simpl. by apply bool_decide_eq_true. Qed.

Lemma settled_step cb n ev (w w' : World) :
  Settled cb n w → usesCallback cb ev = false → effect w w' ev →
  Settled cb n w'.
Proof.
  intros (Hun & Hn & Hnp) Huse Heff.
  destruct Heff; unfold_views; simpl in Huse;
    try apply bool_decide_eq_false in Huse;
    repeat match goal with H : _ ∧ _ |- _ => destruct H end;
    repeat match goal with
           | H : followups w' = _ |- _ => rewrite H; clear H
           | H : fifo w' = _ |- _ => rewrite H; clear H
           | H : plan w' = _ |- _ => rewrite H; clear H
           | H : delivered w' = _ |- _ => rewrite H; clear H
           end.
  - done.
  - done.
  - done.
  - rewrite count_app; simpl. rewrite bool_decide_eq_false_2 by done.
    simpl. split_and!; [done | lia | done].
  - split_and!; [|done|done].
    intros s. destruct (decide (sid = s)) as [->|Hne].
    + rewrite lookup_insert_eq. congruence.
    + rewrite lookup_insert_ne by done. apply Hun.
  - split_and!; [|done|].
    + intros s. destruct (decide (sid = s)) as [->|Hne].
      * rewrite lookup_insert_eq. congruence.
      * rewrite lookup_insert_ne by done. apply Hun.
    + intros a. rewrite List.map_app. rewrite elem_of_app.
      intros [Ha|Ha]; [by apply Hnp|].
      simpl in Ha. apply list_elem_of_singleton in Ha as ->. done.
  - split_and!.
    + intros s. destruct (decide (sid = s)) as [->|Hne].
      * by rewrite lookup_delete_eq.
      * rewrite lookup_delete_ne by done. apply Hun.
    + rewrite count_app.
      assert (Hf : f ≠ Some cb) by (intros ->; by eapply Hun).
      destruct f as [c|]; simpl; [|lia].
      rewrite bool_decide_eq_false_2 by done. simpl. lia.
    + intros a Ha. apply Hnp. destruct (timeouts w !! sid); [|done].
      by eapply elem_of_map_filter.
  - split_and!; [done| |].
    + rewrite count_app.
      rewrite (filter_none (delivers cb) (List.map snd _)); [simpl; lia|].
      intros a Ha. apply Hnp. by eapply elem_of_map_filter.
    + intros a Ha. apply Hnp. by eapply elem_of_map_filter.
  - match goal with H : fifo w = _ |- _ => rewrite H in * end.
    rewrite count_app. simpl in *.
    destruct (decide (cb0 = cb)) as [->|Hne].
    + rewrite bool_decide_eq_true_2 in Hn by done.
      rewrite isFor_same. simpl in *.
      split_and!; [done | lia | done].
    + rewrite bool_decide_eq_false_2 in Hn by congruence.
      rewrite isFor_other by done. simpl in *.
      split_and!; [done | lia | done].
  - match goal with H : fifo w = _ |- _ => rewrite H in * end.
    simpl in *. split_and!; [| |done].
    + intros s. destruct (decide (sid = s)) as [->|Hne].
      * by rewrite lookup_delete_eq.
      * rewrite lookup_delete_ne by done. apply Hun.
    + rewrite count_app.
      destruct (followups w !! sid) as [[c|]|] eqn:Hfol; simpl; try lia.
      rewrite isFor_other; [simpl; lia|].
      intros ->. by eapply Hun.
Qed.


(** ** A callback that waits as the follow-up of its stream

    It stays there until a message arrives on the stream or the timeout
    closure of the stream runs, which turn it into one call; a later
    request that is given the same stream drops it. *)

Lemma lookup_insert_other {V} (m : gmap StreamID V) (sid s : StreamID)
  (h v : V) :
  h ≠ v → <[sid := h]> m !! s = Some v → s ≠ sid ∧ m !! s = Some v.
Proof.
  intros Hne. destruct (decide (sid = s)) as [->|Hs].
  - rewrite lookup_insert_eq. congruence.
  - rewrite lookup_insert_ne by done. done.
Qed.

Lemma lookup_delete_other {V} (m : gmap StreamID V) (sid s : StreamID) (v : V) :
  delete sid m !! s = Some v → s ≠ sid ∧ m !! s = Some v.
Proof.
  destruct (decide (sid = s)) as [->|Hs].
  - by rewrite lookup_delete_eq.
  - rewrite lookup_delete_ne by done. done.
Qed.

Lemma armed_step cb sid ev (w w' : World) :
  Armed cb sid w → usesCallback cb ev = false → effect w w' ev →
  Armed cb sid w'
  ∨ (Settled cb 1 w' ∧ (answers sid ev = true ∨ ActTimeout sid ∈ fifo w))
  ∨ (Settled cb 0 w' ∧ reusesStream sid ev = true).
Proof.
  intros (Hfol & Huniq & Hq0 & Hd0 & Hnp) Huse Heff.
  destruct Heff; unfold_views; simpl in Huse;
    try apply bool_decide_eq_false in Huse; rewrite_views w'.
  - left. done.
  - left. done.
  - left. done.
  - left. rewrite count_app. simpl. rewrite bool_decide_eq_false_2 by done.
    simpl. split_and!; [done | done | lia | done | done].
  - destruct (decide (sid0 = sid)) as [->|Hne].
    + right. right. split; [|simpl; by apply bool_decide_eq_true].
      split_and!; [|lia|done].
      intros s Hs. apply lookup_insert_other in Hs as [Hs1 Hs2]; [|congruence].
      by apply Huniq in Hs2.
    + left. split_and!; [|  |done|done|done].
      * by rewrite lookup_insert_ne.
      * intros s Hs. apply lookup_insert_other in Hs as [_ Hs]; [|congruence].
        by apply Huniq.
  - assert (Hnp' : ∀ a, a ∈ List.map snd (plan w ++ [(serial w, timeout, ActTimeout sid0)])
                        → delivers cb a = false).
    { intros a. rewrite List.map_app, elem_of_app.
      intros [Ha|Ha]; [by apply Hnp|].
      simpl in Ha. by apply list_elem_of_singleton in Ha as ->. }
    destruct (decide (sid0 = sid)) as [->|Hne].
    + right. right. split; [|simpl; by apply bool_decide_eq_true].
      split_and!; [|lia|done].
      intros s Hs. apply lookup_insert_other in Hs as [Hs1 Hs2]; [|congruence].
      by apply Huniq in Hs2.
    + left. split_and!; [|  |done|done|done].
      * by rewrite lookup_insert_ne.
      * intros s Hs. apply lookup_insert_other in Hs as [_ Hs]; [|congruence].
        by apply Huniq.
  - assert (Hnp' : ∀ a, a ∈ List.map snd
                (match timeouts w !! sid0 with
                 | Some pa => List.filter (λ p, negb (isPlanned pa p)) (plan w)
                 | None => plan w
                 end) → delivers cb a = false).
    { intros a Ha. apply Hnp. destruct (timeouts w !! sid0); [|done].
      by eapply elem_of_map_filter. }
    destruct (decide (sid0 = sid)) as [->|Hne].
    + right. left. split; [|left; simpl; by apply bool_decide_eq_true].
      assert (f = Some cb) as -> by congruence.
      rewrite count_app. simpl. rewrite bool_decide_eq_true_2 by done. simpl.
      split_and!; [|lia|done].
      intros s Hs. apply lookup_delete_other in Hs as [Hs1 Hs2].
      by apply Huniq in Hs2.
    + left. assert (Hf : f ≠ Some cb).
      { intros ->. apply Hne. by apply Huniq. }
      rewrite count_app.
      split_and!; [| | |done|done].
      * by rewrite lookup_delete_ne.
      * intros s Hs. apply lookup_delete_other in Hs as [_ Hs]. by apply Huniq.
      * destruct f as [c|]; simpl; [|lia].
        rewrite bool_decide_eq_false_2 by done. simpl. lia.
  - left. rewrite count_app.
    rewrite (filter_none (delivers cb) (List.map snd _)).
    + split_and!; [done|done|simpl; lia|done|].
      intros a Ha. apply Hnp. by eapply elem_of_map_filter.
    + intros a Ha. apply Hnp. by eapply elem_of_map_filter.
  - left. match goal with H : fifo w = _ |- _ => rewrite H in * end.
    simpl in Hq0.
    destruct (decide (cb0 = cb)) as [->|Hne].
    { rewrite bool_decide_eq_true_2 in Hq0 by done. done. }
    rewrite bool_decide_eq_false_2 in Hq0 by congruence.
    rewrite count_app. simpl. rewrite isFor_other by done. simpl.
    split_and!; [done|done|done|lia|done].
  - match goal with H : fifo w = _ |- _ => rewrite H in * end.
    simpl in Hq0.
    destruct (decide (sid0 = sid)) as [->|Hne].
    + right. left. split; [|right; left].
      rewrite Hfol, count_app. simpl. rewrite isFor_same. simpl.
      split_and!; [|lia|done].
      intros s Hs. apply lookup_delete_other in Hs as [Hs1 Hs2].
      by apply Huniq in Hs2.
    + left. rewrite count_app.
      split_and!; [| |done| |done].
      * by rewrite lookup_delete_ne.
      * intros s Hs. apply lookup_delete_other in Hs as [_ Hs]. by apply Huniq.
      * destruct (followups w !! sid0) as [[c|]|] eqn:Hfol0; simpl; try lia.
        rewrite isFor_other; [simpl; lia|].
        intros ->. apply Hne. by apply Huniq.
Qed.


(** ** What the calls of a callback carry *)

Lemma noPlannedDelivery_step cb ev (w w' : World) :
  noPlannedDelivery cb w → effect w w' ev → noPlannedDelivery cb w'.
Proof.
  intros Hnp Heff.
  destruct Heff; unfold_views; rewrite_views w'; try done.
  - intros a. rewrite List.map_app, elem_of_app.
    intros [Ha|Ha]; [by apply Hnp|].
    simpl in Ha. by apply list_elem_of_singleton in Ha as ->.
  - intros a Ha. apply Hnp. destruct (timeouts w !! sid); [|done].
    by eapply elem_of_map_filter.
  - intros a Ha. apply Hnp. by eapply elem_of_map_filter.
Qed.

Lemma payloads_step (P : option MinKadMessage → option Error → Prop)
  cb ev (w w' : World) :
  (∀ msg, P (fst (answerPayload msg)) (snd (answerPayload msg))) →
  (∀ sid, followups w !! sid = Some (Some cb) → ActTimeout sid ∈ fifo w →
          P None (Some ErrTimeout)) →
  noPlannedDelivery cb w → payloads P cb w →
  usesCallback cb ev = false → effect w w' ev →
  payloads P cb w'.
Proof.
  intros Hans Htm Hnp [Hq Hd] Huse Heff.
  destruct Heff; unfold_views; simpl in Huse;
    try apply bool_decide_eq_false in Huse; rewrite_views w';
    try (split; done).
  - split; [|done]. intros r e. rewrite elem_of_app.
    intros [Hin|Hin]; [by apply Hq|].
    apply list_elem_of_singleton in Hin. congruence.
  - split; [|done]. intros r e. rewrite elem_of_app.
    intros [Hin|Hin]; [by apply Hq|].
    destruct f as [c|]; [|by apply elem_of_nil in Hin].
    apply list_elem_of_singleton in Hin. injection Hin as _ -> ->.
    apply Hans.
  - split; [|done]. intros r e. rewrite elem_of_app.
    intros [Hin|Hin]; [by apply Hq|].
    apply elem_of_map_filter, Hnp in Hin. simpl in Hin.
    by rewrite bool_decide_eq_true_2 in Hin.
  - match goal with H : fifo w = _ |- _ => rewrite H in * end.
    split.
    + intros r e Hin. apply Hq. by right.
    + intros d. rewrite elem_of_app. intros [Hin|Hin] Hcb; [by apply Hd|].
      apply list_elem_of_singleton in Hin as ->. simpl in *. subst cb0.
      apply Hq. left.
  - match goal with H : fifo w = _ |- _ => rewrite H in * end.
    split.
    + intros r e Hin. apply Hq. by right.
    + intros d. rewrite elem_of_app. intros [Hin|Hin] Hcb; [by apply Hd|].
      destruct (followups w !! sid) as [[c|]|] eqn:Hfol;
        try by apply elem_of_nil in Hin.
      apply list_elem_of_singleton in Hin as ->. simpl in *. subst c.
      apply (Htm sid); [done | left].
Qed.

Lemma no_calls_payloads P cb (w : World) :
  queuedFor cb w = O → deliveredTo cb w = O → payloads P cb w.
Proof.
  intros Hq Hd. unfold queuedFor, deliveredTo, deliveriesTo in *.
  split.
  - intros r e Hin.
    assert (Hx : ActDeliver (Some cb) r e ∈ List.filter (delivers cb) (fifo w)).
    { apply elem_of_List_filter. split; [done|]. simpl.
      by apply bool_decide_eq_true. }
    destruct (List.filter (delivers cb) (fifo w)); [|done].
    by apply elem_of_nil in Hx.
  - intros d Hin Hcb.
    assert (Hx : d ∈ List.filter (isFor cb) (delivered w)).
    { apply elem_of_List_filter. split; [done|].
      by apply bool_decide_eq_true. }
    destruct (List.filter (isFor cb) (delivered w)); [|done].
    by apply elem_of_nil in Hx.
Qed.

(** ** Timeout closures *)

Lemma noTimeout_step sid ev (w w' : World) :
  ¬ timeoutPending sid w → reusesStream sid ev = false → effect w w' ev →
  ¬ timeoutPending sid w'.
Proof.
  intros Hno Hre Heff Hpend. apply Hno. clear Hno.
  destruct Heff; unfold_views; simpl in Hre;
    try apply bool_decide_eq_false in Hre; rewrite_all_views w'; try done.
  - destruct Hpend as [Hin|Hin]; [|by right].
    apply elem_of_app in Hin as [Hin|Hin]; [by left|].
    by apply list_elem_of_singleton in Hin.
  - destruct Hpend as [Hin|Hin]; [by left|].
    rewrite List.map_app in Hin.
    apply elem_of_app in Hin as [Hin|Hin]; [by right|].
    simpl in Hin. apply list_elem_of_singleton in Hin. congruence.
  - destruct Hpend as [Hin|Hin].
    + apply elem_of_app in Hin as [Hin|Hin]; [by left|].
      destruct f; [|by apply elem_of_nil in Hin].
      by apply list_elem_of_singleton in Hin.
    + right. destruct (timeouts w !! sid0); [|done].
      by eapply elem_of_map_filter.
  - destruct Hpend as [Hin|Hin].
    + apply elem_of_app in Hin as [Hin|Hin]; [by left|].
      right. by eapply elem_of_map_filter.
    + right. by eapply elem_of_map_filter.
  - destruct Hpend as [Hin|Hin]; [|by right].
    left. match goal with H : fifo w = _ |- _ => rewrite H end. by right.
  - destruct Hpend as [Hin|Hin]; [|by right].
    left. match goal with H : fifo w = _ |- _ => rewrite H end. by right.
Qed.

Lemma wfPlanner_step ev (w w' : World) :
  wfPlanner w → effect w w' ev → wfPlanner w'.
Proof.
  intros (HA & HB & HC) Heff. unfold wfPlanner.
  destruct Heff; unfold_views; rewrite_all_views w'; try done;
    unfold PlannedAction in *.
  - split_and!.
    + intros s pa Hs. destruct (decide (sid = s)) as [->|Hne].
      * rewrite lookup_insert_eq in Hs. injection Hs as <-. lia.
      * rewrite lookup_insert_ne in Hs by done. apply HA in Hs. lia.
    + intros p Hp. apply elem_of_app in Hp as [Hp|Hp].
      * apply HB in Hp. lia.
      * apply list_elem_of_singleton in Hp as ->. simpl. lia.
    + intros s pa p Hs Hp Hpa. destruct (decide (sid = s)) as [->|Hne].
      * rewrite lookup_insert_eq in Hs. injection Hs as <-.
        apply elem_of_app in Hp as [Hp|Hp].
        -- apply HB in Hp. lia.
        -- by apply list_elem_of_singleton in Hp as ->.
      * rewrite lookup_insert_ne in Hs by done.
        apply elem_of_app in Hp as [Hp|Hp]; [by eapply HC|].
        apply list_elem_of_singleton in Hp as ->. simpl in Hpa.
        apply HA in Hs. lia.
  - assert (Hsub : ∀ p, p ∈ match timeouts w !! sid with
                            | Some pa =>
                                List.filter (λ p, negb (isPlanned pa p)) (plan w)
                            | None => plan w
                            end → p ∈ plan w).
    { intros p Hp. destruct (timeouts w !! sid); [|done].
      by apply elem_of_List_filter in Hp as [Hp _]. }
    split_and!.
    + intros s pa Hs. apply lookup_delete_other in Hs as [_ Hs]. by eapply HA.
    + intros p Hp. apply HB. by apply Hsub.
    + intros s pa p Hs Hp Hpa. apply lookup_delete_other in Hs as [_ Hs].
      eapply HC; [done| |done]. by apply Hsub.
  - split_and!; [done| |].
    + intros p Hp. apply HB. by apply elem_of_List_filter in Hp as [Hp _].
    + intros s pa0 p Hs Hp Hpa. eapply HC; [done| |done].
      by apply elem_of_List_filter in Hp as [Hp _].
  - split_and!; [|done|].
    + intros s pa Hs. apply lookup_delete_other in Hs as [_ Hs]. by eapply HA.
    + intros s pa p Hs Hp Hpa. apply lookup_delete_other in Hs as [_ Hs].
      by eapply HC.
Qed.

Lemma timed_step cb sid ev (w w' : World) :
  wfPlanner w → timeoutPending sid w →
  followups w !! sid = Some (Some cb) →
  followups w' !! sid = Some (Some cb) →
  effect w w' ev → timeoutPending sid w'.
Proof.
  intros (HA & HB & HC) Hpend Hfol Hfol' Heff.
  destruct Heff; unfold_views; rewrite_all_views w'; try done.
  - destruct Hpend as [Hin|Hin]; [left|by right].
    apply elem_of_app. by left.
  - destruct Hpend as [Hin|Hin]; [by left|right].
    rewrite List.map_app. apply elem_of_app. by left.
  - destruct (decide (sid0 = sid)) as [->|Hne].
    { by rewrite lookup_delete_eq in Hfol'. }
    destruct Hpend as [Hin|Hin]; [left; apply elem_of_app; by left|right].
    destruct (timeouts w !! sid0) as [pa|] eqn:Hto; [|done].
    apply elem_of_List_map in Hin as (p & Hp2 & Hp).
    apply elem_of_List_map. exists p. split; [done|].
    apply elem_of_List_filter. split; [done|].
    apply negb_true_iff. unfold isPlanned. apply Nat.eqb_neq. intros Hpa.
    pose proof (HC sid0 pa p Hto Hp Hpa) as Hx. congruence.
  - destruct Hpend as [Hin|Hin]; [left; apply elem_of_app; by left|].
    apply elem_of_List_map in Hin as (p & Hp2 & Hp).
    destruct (isPlanned pa p) eqn:Hip.
    + left. apply elem_of_app. right. apply elem_of_List_map.
      exists p. split; [done|]. by apply elem_of_List_filter.
    + right. apply elem_of_List_map. exists p. split; [done|].
      apply elem_of_List_filter. by rewrite Hip.
  - destruct Hpend as [Hin|Hin]; [left|by right].
    match goal with H : fifo w = _ |- _ => rewrite H in Hin end.
    by apply elem_of_cons in Hin as [Hin|Hin].
  - destruct (decide (sid0 = sid)) as [->|Hne].
    { by rewrite lookup_delete_eq in Hfol'. }
    destruct Hpend as [Hin|Hin]; [left|by right].
    match goal with H : fifo w = _ |- _ => rewrite H in Hin end.
    apply elem_of_cons in Hin as [Hin|Hin]; [congruence|done].
Qed.


(** ** From one event to runs *)

Lemma run_cons ev evs (w w' : World) :
  run (ev :: evs) w = Some w' →
  ∃ w1, effect w w1 ev ∧ run evs w1 = Some w'.
Proof.
  simpl. destruct (step ev w) as [w1|] eqn:Hstep; [|done].
  intros Hrun. exists w1. split; [by apply step_effect | done].
Qed.

Lemma settled_run cb n evs : ∀ (w w' : World),
  Settled cb n w →
  Forall (λ ev, usesCallback cb ev = false) evs →
  run evs w = Some w' → Settled cb n w'.
Proof.
  induction evs as [|ev evs IH]; intros w w' Hs Hev Hrun.
  - by injection Hrun as <-.
  - apply Forall_cons in Hev as [Hev1 Hev].
    apply run_cons in Hrun as (w1 & Heff & Hrun).
    eapply IH; [|done|done]. by eapply settled_step.
Qed.

Lemma atMostOnce_step cb sid ev (w w' : World) :
  AtMostOnce cb sid w → usesCallback cb ev = false → effect w w' ev →
  AtMostOnce cb sid w'.
Proof.
  intros [Ha|(n & Hn & Hs)] Huse Heff.
  - destruct (armed_step cb sid ev w w' Ha Huse Heff)
      as [Ha'|[[Hs' _]|[Hs' _]]].
    + by left.
    + right. exists 1%nat. split; [lia | done].
    + right. exists 0%nat. split; [lia | done].
  - right. exists n. split; [done|]. by eapply settled_step.
Qed.

Lemma atMostOnce_noPlanned cb sid (w : World) :
  AtMostOnce cb sid w → noPlannedDelivery cb w.
Proof. intros [(_ & _ & _ & _ & H1)|(n & _ & _ & _ & H2)]; done. Qed.

Lemma atMostOnce_run P cb sid evs : ∀ (w w' : World),
  (∀ msg, P (fst (answerPayload msg)) (snd (answerPayload msg))) →
  P None (Some ErrTimeout) →
  AtMostOnce cb sid w → payloads P cb w →
  Forall (λ ev, usesCallback cb ev = false) evs →
  run evs w = Some w' →
  AtMostOnce cb sid w' ∧ payloads P cb w'.
Proof.
  induction evs as [|ev evs IH]; intros w w' Hans Htm Ha Hp Hev Hrun.
  - by injection Hrun as <-.
  - apply Forall_cons in Hev as [Hev1 Hev].
    apply run_cons in Hrun as (w1 & Heff & Hrun).
    eapply IH; [done|done| | |done|done].
    + by eapply atMostOnce_step.
    + eapply payloads_step; [done| |by eapply atMostOnce_noPlanned|done..].
      done.
Qed.

Lemma atMostOnce_bound cb sid (w : World) :
  AtMostOnce cb sid w → (deliveredTo cb w ≤ 1)%nat.
Proof.
  intros [(_ & _ & _ & Hd & _)|(n & Hn & _ & Hs & _)]; lia.
Qed.

Lemma armed_not_settled cb sid n (w : World) :
  Armed cb sid w → Settled cb n w → False.
Proof. intros (Hfol & _) (Hun & _). by eapply Hun. Qed.

Lemma tracked_step P cb sid t ev (w w' : World) :
  (∀ msg, P (fst (answerPayload msg)) (snd (answerPayload msg))) →
  (t ≠ 0 → P None (Some ErrTimeout)) →
  Tracked P cb sid t w →
  usesCallback cb ev = false → reusesStream sid ev = false →
  effect w w' ev →
  Tracked P cb sid t w'.
Proof.
  intros Hans Htm (Hwf & Hp & Hphase) Huse Hre Heff.
  split_and!.
  - intros Ht. eapply wfPlanner_step; [by apply Hwf | done].
  - eapply payloads_step; [done| | |done..].
    + intros s Hs Hin. destruct Hphase as [[Ha Hpend]|Hs'].
      * destruct Ha as (_ & Huniq & _). apply Huniq in Hs as ->.
        case_decide; [|by apply Htm].
        destruct Hpend. by left.
      * destruct Hs' as (Hun & _). by apply Hun in Hs.
    + destruct Hphase as [[(_ & _ & _ & _ & H1) _]|(_ & _ & H2)]; done.
  - destruct Hphase as [[Ha Hpend]|Hs]; [|right; by eapply settled_step].
    destruct (armed_step cb sid ev w w' Ha Huse Heff)
      as [Ha'|[[Hs' _]|[_ Hre']]]; [|by right|congruence].
    left. split; [done|].
    case_decide.
    + by eapply noTimeout_step.
    + eapply (timed_step cb); [by apply Hwf|done| | |done].
      * by destruct Ha.
      * by destruct Ha'.
Qed.

Lemma tracked_run P cb sid t evs : ∀ (w w' : World),
  (∀ msg, P (fst (answerPayload msg)) (snd (answerPayload msg))) →
  (t ≠ 0 → P None (Some ErrTimeout)) →
  Tracked P cb sid t w →
  Forall (λ ev, usesCallback cb ev = false) evs →
  Forall (λ ev, reusesStream sid ev = false) evs →
  run evs w = Some w' →
  Tracked P cb sid t w'.
Proof.
  induction evs as [|ev evs IH]; intros w w' Hans Htm Htr Hev Hre Hrun.
  - by injection Hrun as <-.
  - apply Forall_cons in Hev as [Hev1 Hev].
    apply Forall_cons in Hre as [Hre1 Hre].
    apply run_cons in Hrun as (w1 & Heff & Hrun).
    eapply IH; [done|done| |done|done|done].
    by eapply tracked_step.
Qed.

(** A message on the stream takes the callback off it. *)
Lemma armed_answer cb sid ev (w w' : World) :
  Armed cb sid w → answers sid ev = true → effect w w' ev →
  ¬ Armed cb sid w'.
Proof.
  intros (Hfol & _) Hans Heff (Hfol' & _).
  destruct Heff; simpl in Hans; try done; unfold ResponseHandlerFn in *.
  - destruct ev; simpl in *; done.
  - apply bool_decide_eq_true in Hans as ->. congruence.
  - apply bool_decide_eq_true in Hans as ->.
    match goal with H : followups w' = _ |- _ => rewrite H in Hfol' end.
    by rewrite lookup_delete_eq in Hfol'.
Qed.

Lemma tracked_answered P cb sid t evs : ∀ (w w' : World),
  (∀ msg, P (fst (answerPayload msg)) (snd (answerPayload msg))) →
  (t ≠ 0 → P None (Some ErrTimeout)) →
  Tracked P cb sid t w →
  Forall (λ ev, usesCallback cb ev = false) evs →
  Forall (λ ev, reusesStream sid ev = false) evs →
  run evs w = Some w' →
  existsb (answers sid) evs = true →
  Settled cb 1 w'.
Proof.
  induction evs as [|ev evs IH]; intros w w' Hans Htm Htr Hev Hre Hrun Hex.
  - done.
  - apply Forall_cons in Hev as [Hev1 Hev].
    apply Forall_cons in Hre as [Hre1 Hre].
    apply run_cons in Hrun as (w1 & Heff & Hrun).
    pose proof (tracked_step P cb sid t ev w w1 Hans Htm Htr Hev1 Hre1 Heff)
      as Htr1.
    simpl in Hex. destruct (answers sid ev) eqn:Hev_ans.
    + destruct Htr1 as (_ & _ & [[Ha1 _]|Hs1]).
      * destruct Htr as (_ & _ & [[Ha _]|Hs]).
        -- by destruct (armed_answer cb sid ev w w1 Ha Hev_ans Heff).
        -- destruct (armed_not_settled cb sid 1 w1 Ha1).
           by eapply settled_step.
      * by eapply settled_run.
    + by eapply IH.
Qed.

Lemma armed_silent cb sid evs : ∀ (w w' : World),
  Armed cb sid w → ¬ timeoutPending sid w →
  Forall (λ ev, usesCallback cb ev = false) evs →
  Forall (λ ev, reusesStream sid ev = false) evs →
  run evs w = Some w' →
  existsb (answers sid) evs = false →
  Armed cb sid w' ∧ ¬ timeoutPending sid w'.
Proof.
  induction evs as [|ev evs IH]; intros w w' Ha Hno Hev Hre Hrun Hex.
  - by injection Hrun as <-.
  - apply Forall_cons in Hev as [Hev1 Hev].
    apply Forall_cons in Hre as [Hre1 Hre].
    apply run_cons in Hrun as (w1 & Heff & Hrun).
    simpl in Hex. apply orb_false_iff in Hex as [Hex1 Hex].
    eapply IH; [| |done|done|done|done].
    + destruct (armed_step cb sid ev w w1 Ha Hev1 Heff)
        as [Ha'|[[_ [Hx|Hx]]|[_ Hx]]]; [done|congruence| |congruence].
      destruct Hno. by left.
    + by eapply noTimeout_step.
Qed.

Lemma noTimeout_run sid evs : ∀ (w w' : World),
  ¬ timeoutPending sid w →
  Forall (λ ev, reusesStream sid ev = false) evs →
  run evs w = Some w' → ¬ timeoutPending sid w'.
Proof.
  induction evs as [|ev evs IH]; intros w w' Hno Hre Hrun.
  - by injection Hrun as <-.
  - apply Forall_cons in Hre as [Hre1 Hre].
    apply run_cons in Hrun as (w1 & Heff & Hrun).
    eapply IH; [|done|done]. by eapply noTimeout_step.
Qed.

Lemma settled_quiescent cb (w : World) :
  Settled cb 1 w → quiescent w → deliveredTo cb w = 1%nat.
Proof.
  intros (_ & Hn & _) [Hq _]. unfold queuedFor in Hn. rewrite Hq in Hn.
  simpl in Hn. lia.
Qed.

Lemma pending_not_quiescent sid (w : World) :
  timeoutPending sid w → quiescent w → False.
Proof.
  intros [Hin|Hin] [Hq Hp].
  - rewrite Hq in Hin. by apply elem_of_nil in Hin.
  - unfold plannedActions in Hin. rewrite Hp in Hin.
    by apply elem_of_nil in Hin.
Qed.


(** ** One request and its callback *)

Lemma answerPayload_ok reply msg :
  payloadOk reply (fst (answerPayload msg)) (snd (answerPayload msg)).
Proof.
  unfold answerPayload. destruct (asResponse msg) eqn:Hm; simpl.
  - by rewrite Hm.
  - right. right. by left.
Qed.

Lemma answerPayload_no_timeout msg :
  snd (answerPayload msg) ≠ Some ErrTimeout.
Proof. unfold answerPayload. by destruct (asResponse msg). Qed.

(** What the call does with a callback that is not in use. *)
Lemma send_establishes cb protoID id req resp t reply (w0 w1 : World) :
  fresh cb w0 →
  effect w0 w1 (EvSendRequest protoID id req resp t (Some cb) reply) →
  match opened id reply w0 with
  | None => Settled cb 1 w1 ∧ payloads (payloadOk reply) cb w1
  | Some sid =>
      Armed cb sid w1
      ∧ followups w1 = <[sid := Some cb]> (followups w0)
      ∧ fifo w1 = fifo w0
      ∧ (t = 0 → plan w1 = plan w0 ∧ timeouts w1 = timeouts w0)
      ∧ (t ≠ 0 → timeoutPending sid w1)
  end.
Proof.
  intros (Hun & Hq & Hd & Hnp) Heff.
  pose proof (no_calls_payloads (payloadOk reply) cb w0 Hq Hd) as [Hpq Hpd].
  inversion Heff as
    [ev Hquiet _ Hev | | | ? ? ? ? ? ? ? err Hop Herr Hfol Hto Hfifo Hplan Hser Hdel
     | ? ? ? ? ? sid Hop Hfol Hto Hfifo Hplan Hser Hdel
     | ? ? ? ? ? ? sid Hne Hop Hfol Hto Hfifo Hplan Hser Hdel | | | | ];
    subst.
  - done.
  - rewrite Hop. split.
    + unfold Settled, unregistered, queuedFor, deliveredTo, deliveriesTo,
        noPlannedDelivery, plannedActions in *.
      rewrite Hfol, Hfifo, Hplan, Hdel, count_app. simpl.
      rewrite bool_decide_eq_true_2 by done. simpl.
      split_and!; [done | lia | done].
    + unfold payloads. rewrite Hfifo, Hdel. split; [|done].
      intros r e Hin. apply elem_of_app in Hin as [Hin|Hin]; [by apply Hpq|].
      apply list_elem_of_singleton in Hin. injection Hin as -> ->.
      simpl. destruct Herr as [-> | ->]; [right; left; done | do 3 right; done].
  - rewrite Hop. split_and!; [|done|done|done|done].
    unfold Armed, unregistered, queuedFor, deliveredTo, deliveriesTo,
      noPlannedDelivery, plannedActions in *.
    rewrite Hfol, Hfifo, Hplan, Hdel.
    split_and!; [by rewrite lookup_insert_eq| |done|done|done].
    intros s Hs. destruct (decide (sid = s)) as [->|Hs']; [done|].
    rewrite lookup_insert_ne in Hs by done. by apply Hun in Hs.
  - rewrite Hop.
    assert (Hpending : timeoutPending sid w1).
    { right. unfold plannedActions. rewrite Hplan, List.map_app.
      apply elem_of_app. right. simpl. apply list_elem_of_singleton. done. }
    split_and!; [|done|done|done|done].
    unfold Armed, unregistered, queuedFor, deliveredTo, deliveriesTo,
      noPlannedDelivery, plannedActions in *.
    rewrite Hfol, Hfifo, Hplan, Hdel.
    split_and!; [by rewrite lookup_insert_eq| |done|done|].
    + intros s Hs. destruct (decide (sid = s)) as [->|Hs']; [done|].
      rewrite lookup_insert_ne in Hs by done. by apply Hun in Hs.
    + intros a. rewrite List.map_app, elem_of_app.
      intros [Ha|Ha]; [by apply Hnp|].
      simpl in Ha. by apply list_elem_of_singleton in Ha as ->.
Qed.

Lemma armed_no_calls cb sid (w : World) :
  Armed cb sid w → queuedFor cb w = O ∧ deliveredTo cb w = O.
Proof. by intros (_ & _ & Hq & Hd & _). Qed.

Lemma deliveriesTo_payloads P cb (w : World) d :
  payloads P cb w → d ∈ deliveriesTo cb w → P (d_resp d) (d_err d).
Proof.
  intros [_ Hd] Hin. apply elem_of_List_filter in Hin as [Hin Hfor].
  apply Hd; [done|]. by apply bool_decide_eq_true in Hfor.
Qed.

(** C5, as the code has it.  A callback handed to
    [SendRequestHandleResponse] with a request of its own is called at
    most once, whatever happens afterwards, and each call carries a
    response message or one of [ErrTimeout], the dial error, the error of
    the router and [ErrInvalidResponseType].  When the scheduler has run
    all that was queued and planned, the callback has been called exactly
    once, except for a request that was sent with timeout 0 on a stream
    on which no message arrived: that callback has not been called.  (The
    count on a stream assumes what the router provides: the stream has no
    stale timeout and is given to no later request.) *)
Theorem callback_delivered_at_most_once cb protoID id req resp timeout reply
  evs (w0 w1 w2 : World) :
  fresh cb w0 →
  step (EvSendRequest protoID id req resp timeout (Some cb) reply) w0
    = Some w1 →
  Forall (λ ev, usesCallback cb ev = false) evs →
  run evs w1 = Some w2 →
  (deliveredTo cb w2 ≤ 1)%nat
  ∧ (∀ d, d ∈ deliveriesTo cb w2 → payloadOk reply (d_resp d) (d_err d))
  ∧ (quiescent w2 →
     match opened id reply w0 with
     | None => deliveredTo cb w2 = 1%nat
     | Some sid =>
         wfPlanner w0 → ¬ timeoutPending sid w0 →
         Forall (λ ev, reusesStream sid ev = false) evs →
         deliveredTo cb w2 =
           if bool_decide (timeout = 0) && negb (existsb (answers sid) evs)
           then 0%nat else 1%nat
     end).
Proof.
  intros Hfresh Hstep Hothers Hrun.
  apply step_effect in Hstep.
  pose proof (send_establishes _ _ _ _ _ _ _ _ _ Hfresh Hstep) as Hest.
  destruct (opened id reply w0) as [sid|] eqn:Hop.
  - destruct Hest as (Harmed & Hfol & Hfifo & Hzero & Htimed).
    destruct (armed_no_calls _ _ _ Harmed) as [Hq1 Hd1].
    destruct (atMostOnce_run (payloadOk reply) cb sid evs w1 w2) as [Hamo Hpay];
      [apply answerPayload_ok | by left | by left
      | by apply no_calls_payloads | done | done |].
    split_and!.
    + by eapply atMostOnce_bound.
    + intros d. by apply deliveriesTo_payloads.
    + intros Hquiet Hwf Hno Hre.
      assert (Htr : Tracked (λ _ _, True) cb sid timeout w1).
      { split_and!.
        - intros _. by eapply wfPlanner_step.
        - by apply no_calls_payloads.
        - left. split; [done|]. case_decide; [|by apply Htimed].
          destruct (Hzero ltac:(done)) as [Hplan _].
          unfold timeoutPending, plannedActions in *. by rewrite Hfifo, Hplan. }
      pose proof (tracked_run _ cb sid timeout evs w1 w2
                    (λ _, I) (λ _, I) Htr Hothers Hre Hrun) as Htr2.
      destruct (decide (timeout = 0)) as [Hz|Hnz].
      * rewrite bool_decide_eq_true_2 by done. simpl.
        destruct (existsb (answers sid) evs) eqn:Hans; simpl.
        -- apply settled_quiescent; [|done].
           by eapply (tracked_answered _ cb sid timeout evs w1 w2
                        (λ _, I) (λ _, I)).
        -- destruct Htr as (_ & _ & [[_ Hno1]|Hs1]);
             [|by destruct (armed_not_settled _ _ _ _ Harmed Hs1)].
           rewrite decide_True in Hno1 by done.
           destruct (armed_silent cb sid evs w1 w2) as [Ha2 _]; try done.
           by destruct (armed_no_calls _ _ _ Ha2).
      * rewrite bool_decide_eq_false_2 by done. simpl.
        destruct Htr2 as (_ & _ & [[_ Hpend2]|Hs2]).
        -- rewrite decide_False in Hpend2 by done.
           by destruct (pending_not_quiescent sid w2).
        -- by apply settled_quiescent.
  - destruct Hest as [Hs1 Hpay1].
    destruct (atMostOnce_run (payloadOk reply) cb 0%N evs w1 w2) as [Hamo Hpay];
      [apply answerPayload_ok | by left | | done | done | done |].
    { right. exists 1%nat. split; [lia | done]. }
    split_and!.
    + by eapply atMostOnce_bound.
    + intros d. by apply deliveriesTo_payloads.
    + intros Hquiet. apply settled_quiescent; [|done]. by eapply settled_run.
Qed.

(** C10.  A request sent with timeout 0 that passes the dial and the
    send plans no timeout action: the scheduler is left as it was and the
    callback waits as the follow-up of the stream.  No timeout closure for
    the stream is pending afterwards, [ErrTimeout] is never given to the
    callback, and as long as no message arrives on the stream the callback
    is not called at all.  (The stream has no stale timeout and is given
    to no later request, as the router provides.) *)
Theorem zero_timeout_never_times_out cb protoID id req resp reply sid evs
  (w0 w1 w2 : World) :
  fresh cb w0 → ¬ timeoutPending sid w0 →
  opened id reply w0 = Some sid →
  step (EvSendRequest protoID id req resp 0 (Some cb) reply) w0 = Some w1 →
  Forall (λ ev, usesCallback cb ev = false) evs →
  Forall (λ ev, reusesStream sid ev = false) evs →
  run evs w1 = Some w2 →
  (plan w1 = plan w0 ∧ fifo w1 = fifo w0 ∧ timeouts w1 = timeouts w0
   ∧ followups w1 = <[sid := Some cb]> (followups w0))
  ∧ ¬ timeoutPending sid w2
  ∧ (∀ d, d ∈ deliveriesTo cb w2 → d_err d ≠ Some ErrTimeout)
  ∧ (existsb (answers sid) evs = false →
     deliveredTo cb w2 = 0%nat
     ∧ followups w2 !! sid = Some (Some cb)).
Proof.
  intros Hfresh Hno Hop Hstep Hothers Hre Hrun.
  apply step_effect in Hstep.
  pose proof (send_establishes _ _ _ _ _ _ _ _ _ Hfresh Hstep) as Hest.
  rewrite Hop in Hest.
  destruct Hest as (Harmed & Hfol & Hfifo & Hzero & _).
  destruct (Hzero ltac:(done)) as [Hplan Hto].
  destruct (armed_no_calls _ _ _ Harmed) as [Hq1 Hd1].
  assert (Hno1 : ¬ timeoutPending sid w1).
  { unfold timeoutPending, plannedActions in *. by rewrite Hfifo, Hplan. }
  split_and!; try done.
  - by eapply noTimeout_run.
  - assert (Htr : Tracked (λ _ e, e ≠ Some ErrTimeout) cb sid 0 w1).
    { split_and!; [done | by apply no_calls_payloads |].
      left. split; [done|]. by rewrite decide_True. }
    pose proof (tracked_run _ cb sid 0 evs w1 w2
                  answerPayload_no_timeout ltac:(done) Htr Hothers Hre Hrun)
      as (_ & Hpay & _).
    intros d Hd. by apply (deliveriesTo_payloads _ cb w2 d Hpay).
  - intros Hsilent.
    destruct (armed_silent cb sid evs w1 w2) as [Ha2 _]; try done.
    split; [by destruct (armed_no_calls _ _ _ Ha2) | by destruct Ha2].
Qed.

End WithCallbacks.

(** ** The endpoint on concrete inputs *)

Import Inputs.

Lemma worldA_fresh (cb : nat) : fresh cb worldA.
Proof.
  split_and!.
  - intros sid. unfold followups. simpl. by rewrite lookup_empty.
  - reflexivity.
  - reflexivity.
  - intros a Ha. by apply elem_of_nil in Ha.
Qed.

Lemma worldA_wfPlanner : wfPlanner worldA.
Proof.
  split_and!.
  - intros sid pa. unfold timeouts. simpl. by rewrite lookup_empty.
  - intros p Hp. by apply elem_of_nil in Hp.
  - intros sid pa p _ Hp. by apply elem_of_nil in Hp.
Qed.

Lemma worldA_no_timeout sid : ¬ timeoutPending sid worldA.
Proof. intros [Hin|Hin]; by apply elem_of_nil in Hin. Qed.

(** C5, as stated, fails: a request to peer A is sent with timeout 0 and
    nobody answers.  The scheduler runs until nothing is left to run, and
    the callback has not been called. *)
Lemma send_without_timeout_never_calls_back :
  ∃ w1 w2 : @Sim.World nat,
    step (sendA 0) worldA = Some w1
    ∧ run unanswered w1 = Some w2
    ∧ quiescent w2
    ∧ deliveredTo 1%nat w2 = 0%nat.
Proof.
  eexists _, _. split; [vm_compute; reflexivity|].
  split; [vm_compute; reflexivity|].
  split; [split; reflexivity | reflexivity].
Qed.

Lemma callback_delivered_at_most_once_witness :
  ∃ w1 w2 : @Sim.World nat,
    step (sendA 1000) worldA = Some w1
    ∧ run answered w1 = Some w2
    ∧ quiescent w2
    ∧ deliveredTo 1%nat w2 = 1%nat.
Proof.
  destruct (step (sendA 1000) worldA) as [w1|] eqn:H1;
    [|vm_compute in H1; discriminate].
  destruct (run answered w1) as [w2|] eqn:H2;
    [|vm_compute in H1; injection H1 as <-; vm_compute in H2; discriminate].
  exists w1, w2. split; [reflexivity|]. split; [exact H2|].
  assert (Hq : quiescent w2).
  { vm_compute in H1. injection H1 as <-. vm_compute in H2.
    injection H2 as <-. split; reflexivity. }
  split; [exact Hq|].
  destruct (callback_delivered_at_most_once 1%nat "/test/1.0.0" peerA findA
              (Response []) 1000 (inl 7%N) answered worldA w1 w2
              (worldA_fresh 1%nat) H1)
    as (_ & _ & Hcount).
  - repeat constructor.
  - exact H2.
  - apply (Hcount Hq worldA_wfPlanner (worldA_no_timeout 7%N)).
    repeat constructor.
Defined.

Lemma zero_timeout_never_times_out_witness :
  ∃ w1 w2 : @Sim.World nat,
    step (sendA 0) worldA = Some w1
    ∧ run unanswered w1 = Some w2
    ∧ plan w1 = plan worldA
    ∧ deliveredTo 1%nat w2 = 0%nat.
Proof.
  destruct (step (sendA 0) worldA) as [w1|] eqn:H1;
    [|vm_compute in H1; discriminate].
  destruct (run unanswered w1) as [w2|] eqn:H2;
    [|vm_compute in H1; injection H1 as <-; vm_compute in H2; discriminate].
  exists w1, w2. split; [reflexivity|]. split; [exact H2|].
  destruct (zero_timeout_never_times_out 1%nat "/test/1.0.0" peerA findA
              (Response []) (inl 7%N) 7%N unanswered worldA w1 w2
              (worldA_fresh 1%nat) (worldA_no_timeout 7%N))
    as ((Hplan & _) & _ & _ & Hsilent).
  - reflexivity.
  - exact H1.
  - repeat constructor.
  - repeat constructor.
  - exact H2.
  - split; [exact Hplan|]. by destruct (Hsilent eq_refl).
Defined.

End SimFacts.

(** * More about the simulated endpoint *)
Module EndpointFacts.
Import Sim SimFacts.

Section WithCallbacks.
Context {Callback : Type} `{EqDecision Callback}.

Abbreviation Endpoint := (@Sim.Endpoint Callback).
Abbreviation World := (@Sim.World Callback).
Abbreviation Event := (@Sim.Event Callback).

(** ** Dialling and the peerstore *)

Lemma DialPeer_cases (id : NodeID) (e : Endpoint) :
  match connStatus e !! nid_String id with
  | Some Connected | Some CanConnect =>
      snd (DialPeer id e) = None
      ∧ Connectedness_of id (fst (DialPeer id e)) = (Connected, None)
      ∧ DialPeer id (fst (DialPeer id e)) = (fst (DialPeer id e), None)
      ∧ (∀ s, s ≠ nid_String id →
              connStatus (fst (DialPeer id e)) !! s = connStatus e !! s)
      ∧ peerstore (fst (DialPeer id e)) = peerstore e
  | _ => DialPeer id e = (e, Some ErrUnknownPeer)
  end.
Proof.
  unfold DialPeer, Connectedness_of.
  destruct (connStatus e !! nid_String id) as [[]|] eqn:Hs; simpl;
    rewrite ?Hs, ?lookup_insert_eq; try done.
  split_and!; try done.
  intros s Hne. by rewrite lookup_insert_ne.
Qed.

Lemma MaybeAddToPeerstore_lookup (addr : NodeAddr) (ttl : Duration)
  (e : Endpoint) :
  let k := nid_String (na_NodeID addr) in
  let e' := fst (MaybeAddToPeerstore addr ttl e) in
  (∀ s, peerstore e' !! s =
        match peerstore e !! s with
        | Some a => Some a
        | None => if decide (s = k) then Some addr else None
        end)
  ∧ (∀ s, connStatus e' !! s =
          match connStatus e !! s with
          | Some c => Some c
          | None => if decide (s = k) then Some CanConnect else None
          end).
Proof.
  unfold MaybeAddToPeerstore.
  destruct (peerstore e !! nid_String (na_NodeID addr)) as [a|] eqn:Hp;
    cbn;
    destruct (connStatus e !! nid_String (na_NodeID addr)) as [c|] eqn:Hc;
    cbn; split; intros s;
    destruct (decide (s = nid_String (na_NodeID addr))) as [->|Hne];
    rewrite ?Hp, ?Hc, ?lookup_insert_eq, ?lookup_insert_ne by done;
    try done; by destruct (_ !! s).
Qed.

(** X1.  [DialPeer] succeeds exactly on a peer whose status is
    [Connected] or [CanConnect]; the peer is [Connected] afterwards, a
    second dial succeeds and changes nothing, the other peers and the
    peerstore are untouched.  On any other peer it returns
    [ErrUnknownPeer] and leaves the endpoint as it was. *)
Theorem DialPeer_outcome (id : NodeID) (e : Endpoint) :
  match connStatus e !! nid_String id with
  | Some Connected | Some CanConnect =>
      snd (DialPeer id e) = None
      ∧ Connectedness_of id (fst (DialPeer id e)) = (Connected, None)
      ∧ DialPeer id (fst (DialPeer id e)) = (fst (DialPeer id e), None)
      ∧ (∀ s, s ≠ nid_String id →
              connStatus (fst (DialPeer id e)) !! s = connStatus e !! s)
      ∧ peerstore (fst (DialPeer id e)) = peerstore e
  | _ => DialPeer id e = (e, Some ErrUnknownPeer)
  end.
Proof. apply DialPeer_cases. Qed.

(** X2.  [MaybeAddToPeerstore] never overwrites: an address or a
    connection status that is already stored for the identifier is kept,
    an absent one is set (to the given address, to [CanConnect]), and
    nothing else in the endpoint changes. *)
Theorem MaybeAddToPeerstore_keeps_existing (addr : NodeAddr) (ttl : Duration)
  (e : Endpoint) :
  let k := nid_String (na_NodeID addr) in
  let e' := fst (MaybeAddToPeerstore addr ttl e) in
  (∀ s, peerstore e' !! s =
        match peerstore e !! s with
        | Some a => Some a
        | None => if decide (s = k) then Some addr else None
        end)
  ∧ (∀ s, connStatus e' !! s =
          match connStatus e !! s with
          | Some c => Some c
          | None => if decide (s = k) then Some CanConnect else None
          end)
  ∧ self e' = self e ∧ sched e' = sched e
  ∧ serverProtos e' = serverProtos e
  ∧ streamFollowup e' = streamFollowup e
  ∧ streamTimeout e' = streamTimeout e ∧ router e' = router e.
Proof.
  intros k e'.
  destruct (MaybeAddToPeerstore_lookup addr ttl e) as (Hp & Hc).
  split_and!; [done|done|..]; unfold e', MaybeAddToPeerstore; cbn;
    repeat case_match; done.
Qed.

(** X3.  After [MaybeAddToPeerstore], [DialPeer] of the same peer
    succeeds and leaves it [Connected], unless a status [NotConnected] or
    [CannotConnect] was stored for it before: then the dial still fails
    with [ErrUnknownPeer]. *)
Theorem DialPeer_after_MaybeAddToPeerstore (addr : NodeAddr) (ttl : Duration)
  (e : Endpoint) :
  let e1 := fst (MaybeAddToPeerstore addr ttl e) in
  match connStatus e !! nid_String (na_NodeID addr) with
  | Some NotConnected | Some CannotConnect =>
      DialPeer (na_NodeID addr) e1 = (e1, Some ErrUnknownPeer)
  | _ =>
      snd (DialPeer (na_NodeID addr) e1) = None
      ∧ Connectedness_of (na_NodeID addr) (fst (DialPeer (na_NodeID addr) e1))
        = (Connected, None)
  end.
Proof.
  intros e1.
  destruct (MaybeAddToPeerstore_lookup addr ttl e) as (_ & Hc).
  specialize (Hc (nid_String (na_NodeID addr))).
  fold e1 in Hc.
  pose proof (DialPeer_cases (na_NodeID addr) e1) as Hd.
  rewrite Hc in Hd.
  destruct (connStatus e !! nid_String (na_NodeID addr)) as [[]|];
    rewrite ?decide_True in Hd by done; try done.
  - by destruct Hd as (? & ? & _).
  - by destruct Hd as (? & ? & _).
  - by destruct Hd as (? & ? & _).
Qed.

(** X4.  [NetworkAddress] after [MaybeAddToPeerstore]: the peer has an
    address, which is the one stored before the call if there was one and
    the given address otherwise. *)
Theorem NetworkAddress_after_MaybeAddToPeerstore (addr : NodeAddr)
  (ttl : Duration) (e : Endpoint) :
  NetworkAddress (PlainID (na_NodeID addr))
    (fst (MaybeAddToPeerstore addr ttl e))
  = (Some (default addr (peerstore e !! nid_String (na_NodeID addr))), None).
Proof.
  destruct (MaybeAddToPeerstore_lookup addr ttl e) as (Hp & _).
  unfold NetworkAddress. simpl. rewrite Hp.
  destruct (peerstore e !! nid_String (na_NodeID addr)); simpl; [done|].
  by rewrite decide_True.
Qed.

(** ** Messages on a stream *)

Lemma learnAll_peerstore (ps : list NodeAddr) : ∀ e : Endpoint,
  peerstore (learnAll ps e)
  = fold_left (λ m p, <[nid_String (na_NodeID p) := p]> m) ps (peerstore e).
Proof. induction ps as [|p ps IH]; intros e; simpl; [done|]. by rewrite IH. Qed.

Lemma learnAll_connStatus (ps : list NodeAddr) : ∀ e : Endpoint,
  connStatus (learnAll ps e)
  = fold_left (λ m p, <[nid_String (na_NodeID p) := CanConnect]> m) ps
      (connStatus e).
Proof. induction ps as [|p ps IH]; intros e; simpl; [done|]. by rewrite IH. Qed.

Lemma learnAll_rest (ps : list NodeAddr) : ∀ e : Endpoint,
  router (learnAll ps e) = router e
  ∧ serverProtos (learnAll ps e) = serverProtos e
  ∧ self (learnAll ps e) = self e.
Proof.
  induction ps as [|p ps IH]; intros e; simpl; [done|].
  destruct (IH (learn p e)) as (-> & -> & ->). done.
Qed.

Lemma learnAll_router ps (e : Endpoint) : router (learnAll ps e) = router e.
Proof. apply learnAll_rest. Qed.

Lemma fold_insert_notin {V} (g : NodeAddr → V) (ps : list NodeAddr) :
  ∀ (m : gmap string V) s,
  (∀ p, p ∈ ps → nid_String (na_NodeID p) ≠ s) →
  fold_left (λ m p, <[nid_String (na_NodeID p) := g p]> m) ps m !! s = m !! s.
Proof.
  induction ps as [|p ps IH]; intros m s Hno; simpl; [done|].
  rewrite IH.
  - apply lookup_insert_ne, Hno. left.
  - intros p' Hp'. apply Hno. by right.
Qed.

Lemma fold_insert_last {V} (g : NodeAddr → V) (l1 l2 : list NodeAddr) p :
  ∀ m : gmap string V,
  (∀ p', p' ∈ l2 → nid_String (na_NodeID p') ≠ nid_String (na_NodeID p)) →
  fold_left (λ m p, <[nid_String (na_NodeID p) := g p]> m) (l1 ++ p :: l2) m
    !! nid_String (na_NodeID p) = Some (g p).
Proof.
  intros m Hno. rewrite fold_left_app. simpl.
  rewrite fold_insert_notin by done. apply lookup_insert_eq.
Qed.

Lemma HandleMessage_response_peers id proto sid closer f (e : Endpoint) :
  streamFollowup e !! sid = Some f →
  let e' := HandleMessage id proto sid (Response closer) e in
  peerstore e'
  = fold_left (λ m p, <[nid_String (na_NodeID p) := p]> m) closer (peerstore e)
  ∧ connStatus e'
    = fold_left (λ m p, <[nid_String (na_NodeID p) := CanConnect]> m) closer
        (connStatus e).
Proof.
  intros Hf. unfold HandleMessage, ResponseHandlerFn in *. rewrite Hf. simpl.
  destruct f; simpl; rewrite learnAll_peerstore, learnAll_connStatus;
    destruct (streamTimeout e !! sid); done.
Qed.

(** X5.  A response on an open stream teaches the endpoint its closer
    peers: each of them gets the status [CanConnect] (also one that was
    [Connected]) and the address it has at its last occurrence in the
    list, replacing a stored one; identifiers that are not in the list
    keep their address and status. *)
Theorem HandleMessage_learns_closer_peers id proto sid f (l1 l2 : list NodeAddr)
  (p : NodeAddr) (e : Endpoint) :
  streamFollowup e !! sid = Some f →
  (∀ p', p' ∈ l2 → nid_String (na_NodeID p') ≠ nid_String (na_NodeID p)) →
  let e' := HandleMessage id proto sid (Response (l1 ++ p :: l2)) e in
  NetworkAddress (PlainID (na_NodeID p)) e' = (Some p, None)
  ∧ Connectedness_of (na_NodeID p) e' = (CanConnect, None)
  ∧ ∀ s, (∀ p', p' ∈ l1 ++ p :: l2 → nid_String (na_NodeID p') ≠ s) →
         peerstore e' !! s = peerstore e !! s
         ∧ connStatus e' !! s = connStatus e !! s.
Proof.
  intros Hf Hlast e'.
  destruct (HandleMessage_response_peers id proto sid (l1 ++ p :: l2) f e Hf)
    as (Hp & Hc).
  fold e' in Hp, Hc.
  unfold NetworkAddress, Connectedness_of. simpl. rewrite Hp, Hc.
  rewrite (fold_insert_last (λ p, p)) by done.
  rewrite (fold_insert_last (λ _, CanConnect)) by done.
  split_and!; [done..|].
  intros s Hs.
  by rewrite (fold_insert_notin (λ p, p)), (fold_insert_notin (λ _, CanConnect)).
Qed.

(** X6.  A message on a stream that waits for its response closes the
    stream: the follow-up and the timeout of the stream are forgotten,
    the planned timeout is taken out of the planner, exactly one call of
    the callback is queued (the message if it is a response,
    [ErrInvalidResponseType] otherwise), nothing is sent (a request
    handler of the protocol is not consulted), and a later message on the
    same stream queues nothing. *)
Theorem HandleMessage_closes_stream id proto sid msg cb (e : Endpoint) :
  streamFollowup e !! sid = Some (Some cb) →
  let e' := HandleMessage id proto sid msg e in
  streamFollowup e' !! sid = None ∧ streamTimeout e' !! sid = None
  ∧ queue (sched e')
    = queue (sched e)
      ++ [ActDeliver (Some cb) (fst (answerPayload msg))
                     (snd (answerPayload msg))]
  ∧ router e' = router e
  ∧ (∀ pa, streamTimeout e !! sid = Some pa →
       ∀ p, p ∈ planned (sched e') → fst (fst p) ≠ pa)
  ∧ ∀ id2 proto2 msg2,
      queue (sched (HandleMessage id2 proto2 sid msg2 e')) = queue (sched e').
Proof.
  intros Hf e'.
  assert (Hf' : streamFollowup e' !! sid = None).
  { unfold e', HandleMessage, ResponseHandlerFn in *. rewrite Hf.
    destruct (asResponse msg); simpl; rewrite ?learnAll_followup;
      destruct (streamTimeout e !! sid); simpl; apply lookup_delete_eq. }
  split_and!; [done|..].
  - unfold e', HandleMessage, ResponseHandlerFn in *. rewrite Hf.
    destruct (asResponse msg); simpl; rewrite ?learnAll_timeout;
      destruct (streamTimeout e !! sid); simpl; apply lookup_delete_eq.
  - unfold e', HandleMessage, answerPayload, ResponseHandlerFn in *. rewrite Hf.
    destruct (asResponse msg); simpl; rewrite ?learnAll_sched;
      destruct (streamTimeout e !! sid); done.
  - unfold e', HandleMessage, ResponseHandlerFn in *. rewrite Hf.
    destruct (asResponse msg) as [closer|]; simpl; rewrite ?learnAll_router;
      destruct (streamTimeout e !! sid); done.
  - intros pa Hpa p. unfold e', HandleMessage, ResponseHandlerFn in *.
    rewrite Hf, Hpa.
    destruct (asResponse msg); simpl; rewrite ?learnAll_sched; simpl;
      intros Hin%list_elem_of_In%filter_In; destruct Hin as (_ & Hin);
      unfold isPlanned in Hin; intros Heq; rewrite Heq, Nat.eqb_refl in Hin;
      done.
  - intros id2 proto2 msg2. unfold HandleMessage at 1. unfold ResponseHandlerFn in *. rewrite Hf'.
    destruct (serverProtos e' !! proto2) as [[h|]|]; [|done..].
    by destruct (h id2 msg2).
Qed.

(** ** Request handlers *)

(** X7.  A message that arrives on a stream no request is waiting on is
    served by the handler added for its protocol: the handler's answer is
    sent to the sender of the message, on the same protocol and stream,
    in the name of the endpoint; if the handler returns an error, nothing
    is sent and nothing changes. *)
Theorem request_is_answered_on_its_stream id proto sid msg
  (h : NodeID → MinKadMessage → MinKadMessage + Error) (e : Endpoint) :
  streamFollowup e !! sid = None →
  let e1 := fst (AddRequestHandler proto (Some h) e) in
  HandleMessage id proto sid msg e1
  = match h id msg with
    | inl resp => set_router (λ r, r ++ [mkSent (self e) id proto sid resp]) e1
    | inr _ => e1
    end.
Proof.
  intros Hf e1. unfold HandleMessage, e1, ResponseHandlerFn in *. simpl.
  rewrite Hf.
  rewrite lookup_insert_eq. by destruct (h id msg).
Qed.

(** X8.  After [RemoveRequestHandler] a request of that protocol is
    dropped: the endpoint does not change and nothing is sent.  Adding a
    nil handler does not change that: it is refused with
    [ErrNilRequestHandler] and the endpoint stays as it was. *)
Theorem removed_handler_drops_requests id proto sid msg (e : Endpoint) :
  streamFollowup e !! sid = None →
  let e' := RemoveRequestHandler proto e in
  HandleMessage id proto sid msg e' = e'
  ∧ AddRequestHandler proto None e' = (e', Some ErrNilRequestHandler).
Proof.
  intros Hf e'. split; [|done].
  unfold e', HandleMessage, ResponseHandlerFn in *. simpl.
  by rewrite Hf, lookup_delete_eq.
Qed.

(** ** What holds of every endpoint made by [NewEndpoint] *)

Lemma peersKnown_ext (e e' : Endpoint) :
  peerstore e' = peerstore e → connStatus e' = connStatus e →
  peersKnown e → peersKnown e'.
Proof. unfold peersKnown. by intros -> ->. Qed.

Lemma peersKnown_learnAll (ps : list NodeAddr) : ∀ e : Endpoint,
  peersKnown e → peersKnown (learnAll ps e).
Proof.
  induction ps as [|p ps IH]; intros e HK; simpl; [done|].
  apply IH. intros s. unfold learn. simpl.
  destruct (decide (s = nid_String (na_NodeID p))) as [->|Hne].
  - rewrite !lookup_insert_eq. by eauto.
  - rewrite !lookup_insert_ne by done. apply HK.
Qed.

Lemma SendRequestHandleResponse_peers proto id req resp timeout h reply
  (e e' : Endpoint) err :
  SendRequestHandleResponse proto id req resp timeout h reply e
  = Some (e', err) →
  peerstore e' = peerstore e
  ∧ connStatus e' = connStatus (fst (DialPeer id e)).
Proof.
  unfold SendRequestHandleResponse.
  destruct (DialPeer_frame id e) as (_ & _ & _ & Hp). revert Hp.
  destruct (DialPeer id e) as [e1 [err1|]]; simpl; intros Hp.
  - by intros [= <- <-].
  - destruct (peerstore e1 !! nid_String id); [|done].
    destruct reply as [sid|err2]; [|by intros [= <- <-]].
    destruct (timeout =? 0); by intros [= <- <-].
Qed.

Lemma peersKnown_DialPeer id (e : Endpoint) :
  peersKnown e → peersKnown (fst (DialPeer id e)).
Proof.
  intros HK s. unfold DialPeer.
  destruct (connStatus e !! nid_String id) as [[]|] eqn:Hs; simpl;
    try apply HK.
  destruct (decide (s = nid_String id)) as [->|Hne].
  - intros _. apply HK. by rewrite Hs.
  - rewrite lookup_insert_ne by done. apply HK.
Qed.

Lemma peersKnown_step ev (w w' : World) :
  step ev w = Some w' → peersKnown (endpoint w) → peersKnown (endpoint w').
Proof.
  destruct ev as [id|addr ttl|protoID id req resp timeout h reply
                  |id protoID sid msg|protoID rh|protoID|pa|]; simpl.
  - intros [= <-] HK. by apply peersKnown_DialPeer.
  - intros [= <-] HK s. simpl.
    destruct (MaybeAddToPeerstore_lookup addr ttl (endpoint w)) as (Hp & Hc).
    rewrite Hp, Hc. specialize (HK s).
    destruct (connStatus (endpoint w) !! s), (peerstore (endpoint w) !! s);
      try done; try (by eauto).
    + intros _. exfalso. by destruct HK as [? ?]; [eauto|].
    + case_decide; [by eauto|]. by intros [? ?].
  - destruct (SendRequestHandleResponse _ _ _ _ _ _ _ _) as [[e' err]|] eqn:Hs;
      [|done].
    intros [= <-] HK. simpl.
    apply SendRequestHandleResponse_peers in Hs as (Hp & Hc).
    intros s. rewrite Hp, Hc.
    destruct (DialPeer_frame id (endpoint w)) as (_ & _ & _ & <-).
    by apply peersKnown_DialPeer.
  - intros [= <-] HK. simpl. unfold HandleMessage.
    destruct (streamFollowup (endpoint w) !! sid) as [f|].
    + set (e2 := set_streamTimeout _ _).
      assert (HK2 : peersKnown e2).
      { apply (peersKnown_ext (endpoint w)); [..|done];
          unfold e2; by destruct (streamTimeout (endpoint w) !! sid). }
      destruct (asResponse msg) as [closer|].
      * apply (peersKnown_learnAll closer) in HK2.
        by destruct f; [apply (peersKnown_ext (learnAll closer e2))|].
      * by destruct f; [apply (peersKnown_ext e2)|].
    + destruct (serverProtos (endpoint w) !! protoID) as [[hd|]|]; [|done..].
      by destruct (hd id msg).
  - intros [= <-] HK. by destruct rh.
  - by intros [= <-] HK.
  - by intros [= <-] HK.
  - destruct (queue (sched (endpoint w))) as [|a rest]; [by intros [= <-]|].
    destruct a as [[cb|] r er|sid]; simpl; [by intros [= <-]|done|].
    by destruct (streamFollowup (endpoint w) !! sid) as [[cb|]|];
      intros [= <-].
Qed.

Lemma peersKnown_run evs : ∀ (w w' : World),
  run evs w = Some w' → peersKnown (endpoint w) → peersKnown (endpoint w').
Proof.
  induction evs as [|ev evs IH]; intros w w'; simpl; [by intros [= <-]|].
  destruct (step ev w) as [w1|] eqn:Hstep; [|done].
  intros Hrun HK. eapply IH; [done|]. by eapply peersKnown_step.
Qed.

Lemma wfPlanner_run evs : ∀ (w w' : World),
  run evs w = Some w' → wfPlanner w → wfPlanner w'.
Proof.
  induction evs as [|ev evs IH]; intros w w' Hrun Hwf.
  - simpl in Hrun. by injection Hrun as <-.
  - apply run_cons in Hrun as (w1 & Heff & Hrun).
    eapply IH; [done|]. by eapply wfPlanner_step.
Qed.

(** X9.  On an endpoint made by [NewEndpoint] and used through its
    methods in any order, every peer that has a connection status has an
    address ("id.String() is guaranteed to be in peerstore"): so
    [SendRequestHandleResponse] never dereferences a nil address, and it
    returns a nil error whatever the peer and the router's reply are
    (dial and send failures reach the caller through the callback). *)
Theorem SendRequestHandleResponse_never_panics (self0 : NodeID)
  (evs : list Event) (w : World) proto id req resp timeout h reply :
  run evs (start self0) = Some w →
  peersKnown (endpoint w)
  ∧ ∃ e', SendRequestHandleResponse proto id req resp timeout h reply
            (endpoint w) = Some (e', None).
Proof.
  intros Hrun.
  assert (HK : peersKnown (endpoint w)).
  { eapply peersKnown_run; [done|]. intros s. simpl.
    rewrite lookup_empty. by intros [? ?]. }
  split; [done|].
  unfold SendRequestHandleResponse.
  pose proof (DialPeer_cases id (endpoint w)) as Hd.
  destruct (connStatus (endpoint w) !! nid_String id) as [c|] eqn:Hc.
  - assert (Hp : is_Some (peerstore (endpoint w) !! nid_String id))
      by (apply HK; by rewrite Hc).
    destruct Hp as [addr Hp].
    destruct c;
      try (rewrite Hd; by eauto);
      destruct Hd as (Hnone & _ & _ & _ & Hps);
      destruct (DialPeer id (endpoint w)) as [e1 err1]; simpl in *;
      subst err1; rewrite Hps, Hp;
      (destruct reply; [destruct (timeout =? 0)|]; by eauto).
  - rewrite Hd. by eauto.
Qed.

(** X10.  On such an endpoint a message that arrives on one stream
    cancels the timeout of that stream only: a timeout closure that is
    queued or planned for another stream is still queued or planned
    afterwards. *)
Theorem response_cancels_only_its_timeout (self0 : NodeID)
  (evs : list Event) (w : World) id proto (sid sid' : StreamID) msg :
  run evs (start self0) = Some w → sid' ≠ sid →
  timeoutPending sid w →
  timeoutPending sid (onEndpoint (HandleMessage id proto sid' msg) w).
Proof.
  intros Hrun Hne Hpend.
  assert (Hwf : wfPlanner w).
  { eapply wfPlanner_run; [done|]. unfold wfPlanner, timeouts, plan. simpl.
    split_and!.
    - intros s pa. by rewrite lookup_empty.
    - intros p Hp. by apply elem_of_nil in Hp.
    - intros s pa p. by rewrite lookup_empty. }
  assert (Heff : effect w (onEndpoint (HandleMessage id proto sid' msg) w)
                   (EvHandleMessage id proto sid' msg))
    by (by apply step_effect).
  set (w' := onEndpoint _ w) in *. clearbody w'.
  destruct Hwf as (_ & _ & HC).
  unfold timeoutPending, plannedActions in *.
  inversion Heff as [ev Hq Hun|? ? ? ? Hn Hun| | | | |? ? ? ? f Hf Hfo Hto Hfi Hpl| | |];
    subst.
  - done.
  - destruct Hun as (_ & _ & -> & -> & _). done.
  - rewrite Hfi, Hpl. destruct Hpend as [Hq|Hp].
    + left. apply elem_of_app. by left.
    + right. destruct (timeouts w !! sid') as [pa|] eqn:Hpa; [|done].
      apply elem_of_List_map in Hp as (p & Hsnd & Hin).
      apply elem_of_List_map. exists p. split; [done|].
      apply elem_of_List_filter. split; [done|].
      unfold isPlanned. destruct (Nat.eqb_spec (fst (fst p)) pa) as [Heq|]; [|done].
      specialize (HC sid' pa p Hpa Hin Heq). rewrite Hsnd in HC.
      by injection HC as ->.
Qed.

End WithCallbacks.

Import Inputs.

Lemma HandleMessage_learns_closer_peers_witness :
  let e' := HandleMessage peerA "/test/1.0.0" 7%N
              (Response ([addrOf peerC] ++ addrOf peerB :: []))
              (endpoint waitingA) in
  NetworkAddress (PlainID peerB) e' = (Some (addrOf peerB), None)
  ∧ Connectedness_of peerB e' = (CanConnect, None).
Proof.
  destruct (HandleMessage_learns_closer_peers peerA "/test/1.0.0" 7%N
              (Some 1%nat) [addrOf peerC] [] (addrOf peerB) (endpoint waitingA))
    as (Ha & Hc & _).
  - vm_compute. reflexivity.
  - intros p' Hp'. apply elem_of_nil in Hp'. destruct Hp'.
  - split; [exact Ha | exact Hc].
Defined.

Lemma HandleMessage_closes_stream_witness :
  let e' := HandleMessage peerA "/test/1.0.0" 7%N (Response [addrOf peerB])
              (endpoint waitingA) in
  streamFollowup e' !! 7%N = None
  ∧ queue (sched e')
    = [ActDeliver (Some 1%nat) (Some (Response [addrOf peerB])) None].
Proof.
  destruct (HandleMessage_closes_stream peerA "/test/1.0.0" 7%N
              (Response [addrOf peerB]) 1%nat (endpoint waitingA))
    as (Hf & _ & Hq & _).
  - vm_compute. reflexivity.
  - split; [exact Hf | exact Hq].
Defined.

Lemma request_is_answered_on_its_stream_witness :
  let e1 := fst (AddRequestHandler "/test/1.0.0" (Some answerC) endpointA) in
  HandleMessage peerB "/test/1.0.0" 9%N findA e1
  = set_router
      (λ r, r ++ [mkSent selfID peerB "/test/1.0.0" 9%N
                    (Response [addrOf peerC])]) e1.
Proof.
  apply (request_is_answered_on_its_stream peerB "/test/1.0.0" 9%N findA
           answerC endpointA).
  vm_compute. reflexivity.
Defined.

Lemma removed_handler_drops_requests_witness :
  let e' := RemoveRequestHandler "/test/1.0.0"
              (fst (AddRequestHandler "/test/1.0.0" (Some answerC) endpointA)) in
  HandleMessage peerB "/test/1.0.0" 9%N findA e' = e'.
Proof.
  destruct (removed_handler_drops_requests peerB "/test/1.0.0" 9%N findA
              (fst (AddRequestHandler "/test/1.0.0" (Some answerC) endpointA)))
    as (Hd & _).
  - vm_compute. reflexivity.
  - exact Hd.
Defined.

Lemma SendRequestHandleResponse_never_panics_witness :
  ∃ w : @Sim.World nat,
    run twoStreams (start selfID) = Some w
    ∧ ∃ e', SendRequestHandleResponse "/test/1.0.0" peerC findA (Response [])
              0 (Some 3%nat) (inl 9%N) (endpoint w) = Some (e', None).
Proof.
  destruct (run twoStreams (start selfID)) as [w|] eqn:Hrun;
    [|vm_compute in Hrun; discriminate].
  exists w. split; [reflexivity|].
  destruct (SendRequestHandleResponse_never_panics selfID twoStreams w
              "/test/1.0.0" peerC findA (Response []) 0 (Some 3%nat)
              (inl 9%N) Hrun) as (_ & Hsend).
  exact Hsend.
Defined.

Lemma response_cancels_only_its_timeout_witness :
  ∃ w : @Sim.World nat,
    run twoStreams (start selfID) = Some w
    ∧ timeoutPending 7%N w
    ∧ timeoutPending 7%N
        (onEndpoint (HandleMessage peerB "/test/1.0.0" 8%N (Response [])) w).
Proof.
  destruct (run twoStreams (start selfID)) as [w|] eqn:Hrun;
    [|vm_compute in Hrun; discriminate].
  exists w. split; [reflexivity|].
  assert (Hpend : timeoutPending 7%N w).
  { pose proof Hrun as Hw. vm_compute in Hw. injection Hw as <-.
    right. apply list_elem_of_here. }
  split; [exact Hpend|].
  apply (response_cancels_only_its_timeout selfID twoStreams w peerB
           "/test/1.0.0" 7%N 8%N (Response []) Hrun); [|exact Hpend].
  discriminate.
Defined.

End EndpointFacts.

(** * More about the query engine *)
Module EngineFacts.
Import SimpleQuery QueryFacts.

Section Engine.
Context {RT : Type} `{RoutingTable RT} {U : Type}.

Abbreviation Query := (@SimpleQuery RT U).

(** ** The loop over the closer peers *)

Lemma rangeCloserPeers_app self ttl (k1 k2 : nat) :
  ∀ i arr len calls,
  rangeCloserPeers self ttl (k1 + k2) i arr len calls
  = match rangeCloserPeers self ttl k1 i arr len calls with
    | Some (arr', len', calls') =>
        rangeCloserPeers self ttl k2 (i + k1) arr' len' calls'
    | None => None
    end.
Proof.
  induction k1 as [|k1 IH]; intros i arr len calls; simpl.
  - by rewrite Nat.add_0_r.
  - destruct (arr !! i) as [p|]; [|done].
    destruct (isSelf self p).
    + destruct (removeAt i arr len) as [[arr' len']|]; [|done].
      rewrite IH. by rewrite Nat.add_succ_comm.
    + rewrite IH. by rewrite Nat.add_succ_comm.
Qed.

Lemma rangeCloserPeers_no_self self ttl (k : nat) :
  ∀ i arr len calls,
  (i + k ≤ length arr)%nat →
  Forall (λ p, isSelf self p = false) (take k (drop i arr)) →
  rangeCloserPeers self ttl k i arr len calls
  = Some (arr, len,
          calls ++ List.map (λ p, CallMaybeAddToPeerstore p ttl)
                     (take k (drop i arr))).
Proof.
  induction k as [|k IH]; intros i arr len calls Hlen Hno; simpl.
  - by rewrite app_nil_r.
  - destruct (arr !! i) as [p|] eqn:Hp;
      [|apply lookup_ge_None in Hp; lia].
    rewrite (drop_S _ _ _ Hp) in Hno |- *. simpl in Hno |- *.
    apply Forall_cons in Hno as [-> Hno].
    rewrite IH by (done || lia). by rewrite <- app_assoc.
Qed.

Lemma drop_to_last {A} (l : list A) z :
  last l = Some z → drop (length l - 1) l = [z].
Proof.
  intros (l' & ->)%last_Some. rewrite length_app. simpl.
  replace (length l' + 1 - 1)%nat with (length l') by lia.
  apply drop_app_length.
Qed.

Lemma removeAt_middle (l1 l2 : list NodeAddr) s :
  removeAt (length l1) (l1 ++ s :: l2) (length (l1 ++ s :: l2))
  = Some (l1 ++ l2 ++ option_list (last (s :: l2)),
          (length (l1 ++ s :: l2) - 1)%nat).
Proof.
  unfold removeAt. rewrite length_app. simpl.
  destruct (Nat.leb_spec (length l1 + 1) (length l1 + S (length l2)));
    [|lia].
  do 3 f_equal.
  - apply take_app_length.
  - f_equal.
    + rewrite take_ge by (rewrite length_app; simpl; lia).
      rewrite drop_app_add'; [|done]. done.
    + destruct (last (s :: l2)) as [z|] eqn:Hz.
      * rewrite <- (last_app_cons l1) in Hz.
        apply drop_to_last in Hz. rewrite length_app in Hz. exact Hz.
      * by apply last_None in Hz.
Qed.

Lemma after_self_visited (l2 : list NodeAddr) s :
  take (length l2) (drop 1 (l2 ++ option_list (last (s :: l2))))
  = tail l2 ++ option_list (last l2).
Proof.
  destruct l2 as [|x l2]; [done|].
  change (last (s :: x :: l2)) with (last (x :: l2)).
  destruct (last (x :: l2)) as [z|] eqn:Hz; [|by apply last_None in Hz].
  simpl. rewrite drop_0. apply take_ge. rewrite length_app. simpl. lia.
Qed.

Lemma after_self_no_self self (l2 : list NodeAddr) :
  Forall (λ p, isSelf self p = false) l2 →
  Forall (λ p, isSelf self p = false) (tail l2 ++ option_list (last l2)).
Proof.
  intros Hno. rewrite Forall_forall in Hno. apply Forall_forall.
  intros p [Hp|Hp]%elem_of_app; apply Hno.
  - destruct l2; [done|]. by right.
  - destruct (last l2) as [z|] eqn:Hz; simpl in Hp; [|by apply elem_of_nil in Hp].
    apply list_elem_of_singleton in Hp as ->. by apply last_Some_elem_of.
Qed.

Lemma rangeCloserPeers_one_self self ttl (l1 l2 : list NodeAddr) s calls :
  Forall (λ p, isSelf self p = false) (l1 ++ l2) → isSelf self s = true →
  rangeCloserPeers self ttl (length (l1 ++ s :: l2)) 0 (l1 ++ s :: l2)
    (length (l1 ++ s :: l2)) calls
  = Some (l1 ++ l2 ++ option_list (last (s :: l2)),
          (length (l1 ++ s :: l2) - 1)%nat,
          calls ++ List.map (λ p, CallMaybeAddToPeerstore p ttl)
                     (l1 ++ tail l2 ++ option_list (last l2))).
Proof.
  intros [Hl1 Hl2]%Forall_app Hs.
  rewrite length_app at 1. rewrite rangeCloserPeers_app.
  rewrite rangeCloserPeers_no_self;
    [|rewrite length_app; simpl; lia|by rewrite drop_0, take_app_length].
  rewrite drop_0, take_app_length. simpl.
  rewrite list_lookup_middle by done. rewrite Hs, removeAt_middle.
  rewrite rangeCloserPeers_no_self.
  - replace (drop (S (length l1)) (l1 ++ l2 ++ option_list (last (s :: l2))))
      with (drop 1 (l2 ++ option_list (last (s :: l2))))
      by (by rewrite <- (drop_app_add' l1 _ (length l1) 1) by done;
          rewrite Nat.add_1_r).
    rewrite after_self_visited, !List.map_app, <- app_assoc. done.
  - rewrite !length_app. destruct (last (s :: l2)) eqn:Hz; simpl; [lia|].
    by apply last_None in Hz.
  - replace (drop (S (length l1)) (l1 ++ l2 ++ option_list (last (s :: l2))))
      with (drop 1 (l2 ++ option_list (last (s :: l2))))
      by (by rewrite <- (drop_app_add' l1 _ (length l1) 1) by done;
          rewrite Nat.add_1_r).
    rewrite after_self_visited. by apply after_self_no_self.
Qed.

Lemma loop_table id (closer : list NodeAddr) (q : Query) :
  closer ≠ [] →
  (if 0 <? Z.of_nat (length closer) then fst (AddPeer id (rt q)) else rt q)
  = fst (AddPeer id (rt q)).
Proof.
  intros Hne. destruct closer; [done|].
  by destruct (Z.ltb_spec 0 (Z.of_nat (length (n :: closer)))); [|simpl in *; lia].
Qed.

Lemma handleResponse_of_range id closer (q : Query) arr len calls :
  done q = false → ctxDone q = false →
  rangeCloserPeers
    (Self (if 0 <? Z.of_nat (length closer)
           then fst (AddPeer id (rt q)) else rt q))
    (peerstoreTTL q) (length closer) 0 closer (length closer) (msgEndpoint q)
  = Some (arr, len, calls) →
  ∃ q' stop useful u,
    handleResponse id (Some closer) q = Some q'
    ∧ handleResultFn q id arr (user q) = (stop, useful, u)
    ∧ msgEndpoint q' = calls ∧ user q' = u ∧ done q' = stop.
Proof.
  intros Hd Hc Hrange.
  assert (Hsome : is_Some (handleResponse id (Some closer) q)).
  { unfold handleResponse. rewrite (checkIfDone_active q) by done.
    cbn zeta. destruct (0 <? Z.of_nat (length closer)); simpl in *;
      rewrite Hrange; destruct (handleResultFn q id arr (user q)) as [[[] ?] ?];
      by eauto. }
  destruct Hsome as [q' Hq']. 
  destruct (handleResponse_inv id closer q q' Hd Hc Hq')
    as (arr' & len' & calls' & stop & useful & u & Hr & Hfn & _ & _ & _
        & Hcalls & Hu & Hstop).
  rewrite Hrange in Hr. injection Hr as <- <- <-.
  exists q', stop, useful, u. split_and!; try done.
  destruct stop; by destruct Hstop as (? & _).
Qed.

(** ** What one response does *)

(** X11.  A response whose closer peers do not contain the node itself:
    [handleResponse] returns, calls [MaybeAddToPeerstore] once for each
    closer peer, in the order of the response and with the query's
    peerstore TTL, and then calls the user's callback once, on the closer
    peers as they came; the query is done exactly if the callback says
    stop. *)
Theorem handleResponse_adds_every_closer_peer id closer (q : Query) :
  done q = false → ctxDone q = false →
  Forall (λ p, isSelf (Self (fst (AddPeer id (rt q)))) p = false) closer →
  ∃ q' stop useful u,
    handleResponse id (Some closer) q = Some q'
    ∧ msgEndpoint q'
      = msgEndpoint q
        ++ List.map (λ p, CallMaybeAddToPeerstore p (peerstoreTTL q)) closer
    ∧ handleResultFn q id closer (user q) = (stop, useful, u)
    ∧ user q' = u ∧ done q' = stop.
Proof.
  intros Hd Hc Hno.
  assert (Hrange :
    rangeCloserPeers
      (Self (if 0 <? Z.of_nat (length closer)
             then fst (AddPeer id (rt q)) else rt q))
      (peerstoreTTL q) (length closer) 0 closer (length closer) (msgEndpoint q)
    = Some (closer, length closer,
            msgEndpoint q
            ++ List.map (λ p, CallMaybeAddToPeerstore p (peerstoreTTL q))
                 closer)).
  { destruct (decide (closer = [])) as [->|Hne];
      [simpl; by rewrite app_nil_r|].
    rewrite loop_table by done.
    rewrite rangeCloserPeers_no_self; rewrite ?drop_0, ?firstn_all; done. }
  destruct (handleResponse_of_range id closer q _ _ _ Hd Hc Hrange)
    as (q' & stop & useful & u & Hq' & Hfn & Hcalls & Hu & Hstop).
  exists q', stop, useful, u. done.
Qed.

(** X12.  A response that names the node itself once among its closer
    peers: [handleResponse] returns, and the loop that drops self also
    shifts the peers behind it.  [MaybeAddToPeerstore] is called for the
    peers before self, then for the peers behind self without the first
    of them and with the last of them a second time; so with exactly one
    peer behind self, or none, every peer is added exactly once. *)
Theorem handleResponse_one_self id (l1 l2 : list NodeAddr) s (q : Query) :
  done q = false → ctxDone q = false →
  Forall (λ p, isSelf (Self (fst (AddPeer id (rt q)))) p = false) (l1 ++ l2) →
  isSelf (Self (fst (AddPeer id (rt q)))) s = true →
  ∃ q',
    handleResponse id (Some (l1 ++ s :: l2)) q = Some q'
    ∧ msgEndpoint q'
      = msgEndpoint q
        ++ List.map (λ p, CallMaybeAddToPeerstore p (peerstoreTTL q))
             (l1 ++ tail l2 ++ option_list (last l2)).
Proof.
  intros Hd Hc Hno Hs.
  pose proof (rangeCloserPeers_one_self (Self (fst (AddPeer id (rt q))))
                (peerstoreTTL q) l1 l2 s (msgEndpoint q) Hno Hs) as Hrange.
  rewrite <- (loop_table id (l1 ++ s :: l2) q) in Hrange at 1
    by (by destruct l1).
  destruct (handleResponse_of_range id _ q _ _ _ Hd Hc Hrange)
    as (q' & stop & useful & u & Hq' & _ & Hcalls & _).
  exists q'. done.
Qed.

(** X13.  The peer that answered is added to the routing table exactly
    when its response has at least one closer peer (also when that peer
    is the node itself), and nothing else happens to the routing table;
    on an empty response the endpoint is not called. *)
Theorem handleResponse_adds_peer_iff_closer id closer (q q' : Query) :
  done q = false → ctxDone q = false →
  handleResponse id (Some closer) q = Some q' →
  rt q' = match closer with
          | [] => rt q
          | _ :: _ => fst (AddPeer id (rt q))
          end
  ∧ (closer = [] → msgEndpoint q' = msgEndpoint q).
Proof.
  intros Hd Hc Hq'.
  destruct (handleResponse_inv id closer q q' Hd Hc Hq')
    as (arr & len & calls & stop & useful & u & Hr & _ & _ & _ & Hrt
        & Hcalls & _).
  split.
  - destruct closer as [|p closer]; [done|].
    by rewrite loop_table in Hrt.
  - intros ->. simpl in Hr. by injection Hr as <- <- <-.
Qed.

(** X14.  A nil response is a failed request: the user's callback is not
    called and the endpoint is not called; the peer's key is removed from
    the routing table, the peer is marked unreachable, the counter goes
    down by one and one [newRequest] is queued. *)
Theorem handleResponse_nil_is_requestError id (q : Query) :
  done q = false → ctxDone q = false →
  ∃ q', handleResponse id None q = Some q'
    ∧ q' = requestError id (ErrOther "nil response") q
    ∧ user q' = user q ∧ msgEndpoint q' = msgEndpoint q
    ∧ rt q' = fst (RemoveKey (nid_Key id) (rt q))
    ∧ peerlist q' = updatePeerStatusInPeerlist id unreachable (peerlist q)
    ∧ inflightRequests q' = inflightRequests q - 1
    ∧ sched q' = sched q ++ [ActNewRequest]
    ∧ done q' = false.
Proof.
  intros Hd Hc. eexists. split.
  - unfold handleResponse. by rewrite (checkIfDone_active q).
  - split; [done|]. by rewrite (requestError_active id _ q Hd Hc).
Qed.

(** X15.  When the user's callback says stop, the query is done at once:
    nothing is queued, the peers the callback returned are discarded (the
    frontier only records the answering peer as queried), and the counter
    has gone down by one for the answered request. *)
Theorem handleResponse_stop id closer (q q' : Query) :
  done q = false → ctxDone q = false →
  handleResponse id (Some closer) q = Some q' →
  done q' = true →
  sched q' = sched q
  ∧ peerlist q' = updatePeerStatusInPeerlist id queried (peerlist q)
  ∧ inflightRequests q' = inflightRequests q - 1
  ∧ ∃ arr useful, handleResultFn q id arr (user q) = (true, useful, user q').
Proof.
  intros Hd Hc Hq' Hdone.
  destruct (handleResponse_inv id closer q q' Hd Hc Hq')
    as (arr & len & calls & stop & useful & u & _ & Hfn & _ & _ & _ & _
        & Hu & Hstop).
  destruct stop.
  - destruct Hstop as (_ & Hi & Hs & Hp). subst u. by eauto 10.
  - destruct Hstop as (Hfalse & _). congruence.
Qed.

(** ** What holds over a whole run *)

Lemma quiet_step ev (q : Query) :
  done q = true ∨ ctxDone q = true →
  ∃ q', step ev q = Some q'
    ∧ (done q = true → done q' = true)
    ∧ (ctxDone q = true → ctxDone q' = true ∧ rt q' = rt q)
    ∧ sched q' = sched q ∧ msgEndpoint q' = msgEndpoint q
    ∧ user q' = user q ∧ peerlist q' = peerlist q
    ∧ (∀ a, ev = EvRun a → done q' = true).
Proof.
  intros Hq.
  destruct ev as [[|id resp|id err]|]; simpl;
    unfold newRequest, handleResponse, requestError, checkIfDone; simpl;
    destruct (done q) eqn:Hd, (ctxDone q) eqn:Hc; simpl;
    rewrite ?Hd, ?Hc; simpl;
    try (destruct Hq; discriminate);
    (eexists; split; [reflexivity|]; simpl; split_and!; try done;
     intros a Ha; discriminate).
Qed.

Lemma cancelled_run evs : ∀ q : Query,
  ctxDone q = true →
  ∃ q', run evs q = Some q'
    ∧ (done q = true → done q' = true)
    ∧ ctxDone q' = true ∧ rt q' = rt q
    ∧ sched q' = sched q ∧ msgEndpoint q' = msgEndpoint q
    ∧ user q' = user q ∧ peerlist q' = peerlist q
    ∧ ((∃ a, EvRun a ∈ evs) → done q' = true).
Proof.
  induction evs as [|ev evs IH]; intros q Hc.
  - exists q. split_and!; try done.
    intros (a & Ha). by apply elem_of_nil in Ha.
  - destruct (quiet_step ev q (or_intror Hc))
      as (q1 & Hstep & Hd1 & Hc1 & Hs1 & He1 & Hu1 & Hp1 & Hrun1).
    destruct (Hc1 Hc) as (Hc1' & Hrt1).
    destruct (IH q1 Hc1')
      as (q' & Hrun & Hd & Hc' & Hrt & Hs & He & Hu & Hp & Hex).
    exists q'. simpl. rewrite Hstep.
    split_and!; try done; try congruence.
    + intros Hdq. by apply Hd, Hd1.
    + intros (a & [Heq|Ha]%elem_of_cons).
      * by apply Hd, (Hrun1 a).
      * apply Hex. by exists a.
Qed.

(** X16.  Once the context is cancelled, whatever runs afterwards
    returns and is silent: no request is sent and no address is added,
    nothing is queued, the user's callback is not called, the frontier is
    not touched and the routing table is left alone (a failed request no
    longer removes its peer); the first closure that runs marks the
    query done. *)
Theorem cancelled_query_is_silent evs (q : Query) :
  ctxDone q = true →
  ∃ q', run evs q = Some q'
    ∧ ctxDone q' = true ∧ rt q' = rt q
    ∧ sched q' = sched q ∧ msgEndpoint q' = msgEndpoint q
    ∧ user q' = user q ∧ peerlist q' = peerlist q
    ∧ ((∃ a, EvRun a ∈ evs) → done q' = true).
Proof.
  intros Hc.
  destruct (cancelled_run evs q Hc)
    as (q' & Hrun & _ & Hc' & Hrt & Hs & He & Hu & Hp & Hex).
  exists q'. done.
Qed.


Lemma settings_step ev (q q' : Query) :
  step ev q = Some q' →
  (done q = true → done q' = true)
  ∧ (ctxDone q = true → ctxDone q' = true)
  ∧ protoID q' = protoID q ∧ req q' = req q
  ∧ concurrency q' = concurrency q ∧ timeout q' = timeout q
  ∧ peerstoreTTL q' = peerstoreTTL q.
Proof.
  destruct ev as [[|id resp|id err]|]; simpl.
  - intros [= <-]. unfold newRequest, checkIfDone.
    destruct (done q) eqn:Hd, (ctxDone q) eqn:Hc; simpl; try done.
    destruct (popClosestQueued (peerlist q)) as [[p|] pl]; simpl; [|done].
    by destruct (String.eqb (nid_String p) "").
  - unfold handleResponse, requestError, checkIfDone.
    destruct (done q) eqn:Hd, (ctxDone q) eqn:Hc; simpl;
      try (by intros [= <-]).
    destruct resp as [closer|]; simpl;
      [|do 2 (rewrite ?Hd, ?Hc; simpl); by intros [= <-]].
    destruct (0 <? Z.of_nat (length closer)); simpl;
      (destruct (rangeCloserPeers _ _ _ _ _ _ _) as [[[arr len] calls]|];
       [|done]);
      destruct (handleResultFn q id arr (user q)) as [[[] useful] u];
      simpl; by intros [= <-].
  - intros [= <-]. unfold requestError, checkIfDone. simpl.
    by destruct (done q) eqn:Hd, (ctxDone q) eqn:Hc; simpl;
      rewrite ?Hd, ?Hc.
  - by intros [= <-].
Qed.

(** X18.  Over any run the settings of a query are never changed
    (protocol, request message, concurrency, request timeout, peerstore
    TTL), and neither cancellation nor being done is ever undone. *)
Theorem query_settings_never_change evs : ∀ q q' : Query,
  run evs q = Some q' →
  (done q = true → done q' = true)
  ∧ (ctxDone q = true → ctxDone q' = true)
  ∧ protoID q' = protoID q ∧ req q' = req q
  ∧ concurrency q' = concurrency q ∧ timeout q' = timeout q
  ∧ peerstoreTTL q' = peerstoreTTL q.
Proof.
  induction evs as [|ev evs IH]; intros q q'; simpl; [by intros [= <-]|].
  destruct (step ev q) as [q1|] eqn:Hstep; [|done].
  intros Hrun.
  destruct (settings_step ev q q1 Hstep) as (Hd1 & Hc1 & ? & ? & ? & ? & ?).
  destruct (IH q1 q' Hrun) as (Hd & Hc & ? & ? & ? & ? & ?).
  split_and!; try congruence; auto.
Qed.

(** X19.  Each event lowers the counter of in-flight requests by at most
    one: after a run of [n] events from a new query the counter is at
    least its initial value minus [n]. *)
Theorem inflight_drops_at_most_one_per_event cancelled req0 cfg evs
  (q0 q : Query) :
  NewSimpleQuery cancelled req0 (inl cfg) = Some q0 →
  run evs q0 = Some q →
  inflightRequests q0 - Z.of_nat (length evs) ≤ inflightRequests q.
Proof.
  intros Hnew Hrun.
  destruct (NewSimpleQuery_inflight cancelled req0 cfg q0 Hnew) as (_ & Hle).
  by destruct (run_inflight evs q0 q Hrun Hle) as (_ & _ & Hlow).
Qed.

End Engine.

Import Inputs.

(** The query over [table3] after its first request went out. *)
Lemma first_request_out (q : @SimpleQuery Table unit) :
  (query3 ≫= run [EvRun ActNewRequest]) = Some q →
  done q = false ∧ ctxDone q = false ∧ peerstoreTTL q = 60000
  ∧ Self (fst (AddPeer peerA (rt q))) = key0.
Proof. intros Hq. vm_compute in Hq. by injection Hq as <-. Qed.

Lemma handleResponse_adds_every_closer_peer_witness :
  ∃ q q',
    (query3 ≫= run [EvRun ActNewRequest]) = Some q
    ∧ handleResponse peerA (Some [addrOf peerB; addrOf peerC]) q = Some q'
    ∧ msgEndpoint q'
      = msgEndpoint q ++ [CallMaybeAddToPeerstore (addrOf peerB) 60000;
                          CallMaybeAddToPeerstore (addrOf peerC) 60000].
Proof.
  destruct (query3 ≫= run [EvRun ActNewRequest]) as [q|] eqn:Hq;
    [|vm_compute in Hq; discriminate].
  destruct (first_request_out q Hq) as (Hd & Hc & Httl & Hself).
  destruct (handleResponse_adds_every_closer_peer peerA
              [addrOf peerB; addrOf peerC] q Hd Hc)
    as (q' & stop & useful & u & Hq' & Hcalls & _).
  - rewrite Hself. repeat constructor.
  - exists q, q'. split; [reflexivity|]. split; [exact Hq'|].
    rewrite Hcalls, Httl. reflexivity.
Defined.

Lemma handleResponse_one_self_witness :
  ∃ q q',
    (query3 ≫= run [EvRun ActNewRequest]) = Some q
    ∧ handleResponse peerA
        (Some ([addrOf peerB] ++ addrOf selfID :: [addrOf peerC])) q = Some q'
    ∧ msgEndpoint q'
      = msgEndpoint q ++ [CallMaybeAddToPeerstore (addrOf peerB) 60000;
                          CallMaybeAddToPeerstore (addrOf peerC) 60000].
Proof.
  destruct (query3 ≫= run [EvRun ActNewRequest]) as [q|] eqn:Hq;
    [|vm_compute in Hq; discriminate].
  destruct (first_request_out q Hq) as (Hd & Hc & Httl & Hself).
  destruct (handleResponse_one_self peerA [addrOf peerB] [addrOf peerC]
              (addrOf selfID) q Hd Hc)
    as (q' & Hq' & Hcalls).
  - rewrite Hself. repeat constructor.
  - rewrite Hself. reflexivity.
  - exists q, q'. split; [reflexivity|]. split; [exact Hq'|].
    rewrite Hcalls, Httl. reflexivity.
Defined.

Lemma handleResponse_adds_peer_iff_closer_witness :
  ∃ q q',
    (query3 ≫= run [EvRun ActNewRequest]) = Some q
    ∧ handleResponse peerA (Some [addrOf peerB]) q = Some q'
    ∧ rt q' = fst (AddPeer peerA (rt q)).
Proof.
  destruct (query3 ≫= run [EvRun ActNewRequest]) as [q|] eqn:Hq;
    [|vm_compute in Hq; discriminate].
  destruct (first_request_out q Hq) as (Hd & Hc & _).
  destruct (handleResponse peerA (Some [addrOf peerB]) q) as [q'|] eqn:Hq';
    [|vm_compute in Hq; injection Hq as <-; vm_compute in Hq'; discriminate].
  exists q, q'. split; [reflexivity|]. split; [exact Hq'|].
  destruct (handleResponse_adds_peer_iff_closer peerA [addrOf peerB] q q'
              Hd Hc Hq') as (Hrt & _).
  exact Hrt.
Defined.

Lemma handleResponse_nil_is_requestError_witness :
  ∃ q q',
    (query3 ≫= run [EvRun ActNewRequest]) = Some q
    ∧ handleResponse peerA None q = Some q'
    ∧ sched q' = sched q ++ [ActNewRequest]
    ∧ inflightRequests q' = inflightRequests q - 1.
Proof.
  destruct (query3 ≫= run [EvRun ActNewRequest]) as [q|] eqn:Hq;
    [|vm_compute in Hq; discriminate].
  destruct (first_request_out q Hq) as (Hd & Hc & _).
  destruct (handleResponse_nil_is_requestError peerA q Hd Hc)
    as (q' & Hq' & _ & _ & _ & _ & _ & Hi & Hs & _).
  exists q, q'. split; [reflexivity|]. split; [exact Hq'|].
  split; [exact Hs | exact Hi].
Defined.

Lemma handleResponse_stop_witness :
  ∃ q q',
    (queryStop ≫= run [EvRun ActNewRequest; EvRun ActNewRequest]) = Some q
    ∧ handleResponse peerA (Some [addrOf peerB]) q = Some q'
    ∧ sched q' = sched q
    ∧ inflightRequests q' = inflightRequests q - 1.
Proof.
  destruct (queryStop ≫= run [EvRun ActNewRequest; EvRun ActNewRequest])
    as [q|] eqn:Hq; [|vm_compute in Hq; discriminate].
  destruct (handleResponse peerA (Some [addrOf peerB]) q) as [q'|] eqn:Hq';
    [|vm_compute in Hq; injection Hq as <-; vm_compute in Hq'; discriminate].
  exists q, q'. split; [reflexivity|]. split; [exact Hq'|].
  destruct (handleResponse_stop peerA [addrOf peerB] q q')
    as (Hs & _ & Hi & _).
  - vm_compute in Hq. injection Hq as <-. reflexivity.
  - vm_compute in Hq. injection Hq as <-. reflexivity.
  - exact Hq'.
  - vm_compute in Hq. injection Hq as <-. vm_compute in Hq'.
    injection Hq' as <-. reflexivity.
  - split; [exact Hs | exact Hi].
Defined.

Lemma cancelled_query_is_silent_witness :
  ∃ q q',
    cancelled1 = Some q
    ∧ run [EvRun (ActRequestError peerA ErrTimeout); EvRun ActNewRequest] q
      = Some q'
    ∧ rt q' = rt q ∧ sched q' = sched q ∧ done q' = true.
Proof.
  destruct cancelled1 as [q|] eqn:Hq; [|vm_compute in Hq; discriminate].
  destruct (cancelled_query_is_silent
              [EvRun (ActRequestError peerA ErrTimeout); EvRun ActNewRequest] q)
    as (q' & Hrun & _ & Hrt & Hs & _ & _ & _ & Hdone).
  - vm_compute in Hq. injection Hq as <-. reflexivity.
  - exists q, q'. split; [reflexivity|]. split; [exact Hrun|].
    split; [exact Hrt|]. split; [exact Hs|].
    apply Hdone. exists ActNewRequest. right. left.
Defined.


Lemma query_settings_never_change_witness :
  ∃ q0 q,
    query3 = Some q0 ∧ run round1 q0 = Some q
    ∧ concurrency q = concurrency q0 ∧ timeout q = timeout q0.
Proof.
  destruct query3 as [q0|] eqn:H0; [|vm_compute in H0; discriminate].
  destruct (run round1 q0) as [q|] eqn:Hrun;
    [|vm_compute in H0; injection H0 as <-; vm_compute in Hrun; discriminate].
  exists q0, q. split; [reflexivity|]. split; [exact Hrun|].
  destruct (query_settings_never_change round1 q0 q Hrun)
    as (_ & _ & _ & _ & Hcon & Ht & _).
  split; [exact Hcon | exact Ht].
Defined.

Lemma inflight_drops_at_most_one_per_event_witness :
  ∃ q0 q,
    query3 = Some q0 ∧ run round1 q0 = Some q
    ∧ inflightRequests q0 - 5 ≤ inflightRequests q.
Proof.
  destruct query3 as [q0|] eqn:H0; [|vm_compute in H0; discriminate].
  destruct (run round1 q0) as [q|] eqn:Hrun;
    [|vm_compute in H0; injection H0 as <-; vm_compute in Hrun; discriminate].
  exists q0, q. split; [reflexivity|]. split; [exact Hrun|].
  apply (inflight_drops_at_most_one_per_event false findA
           (config table3 3 forwardAll) round1 q0 q H0 Hrun).
Defined.

End EngineFacts.
